(** * Loan calculator: EMI, amortization schedule and sensitivity grid

    A shallow embedding of the computational core of [streamlit_app.py]
    ([compute_emi], [amortization_schedule], [sensitivity_table]) and the
    properties its specification states about it.

    Numbers.  The program computes on Python floats.  The code is embedded
    twice.

    - On exact rationals ([Q]): every float operation is carried out
      exactly, a float comparison is the comparison of the rationals, the
      literal [0.01] is 1/100, and a division raises [ZeroDivisionError] on
      a zero divisor.  This embedding carries the statements that rest on
      the structure of the code: the loop and its cap, the numbering and
      chaining of the rows, the zero-snap, the comparison of two runs.
    - On binary64 floats ([Binary64], Rocq's primitive floats): every
      operation rounds as IEEE 754 prescribes, [0.01] is the float the
      literal denotes, and [**] raises [OverflowError] as [float.__pow__]
      does.  This embedding carries the statements in which the value
      computed matters: what [compute_emi] returns or raises, how many rows
      a schedule has, what the "Principal" column adds up to.

    Python's [int] is [Z] in both. *)

From Stdlib Require Import ZArith QArith Qminmax Qpower Qfield Qround Qabs.
From Stdlib Require Import List Bool Lia Lqa.
From Stdlib Require Floats.
Import ListNotations.

Local Open Scope Q_scope.

(** ** Outcomes of a call *)

(** The exceptions the modelled code can raise. *)
Inductive exn : Set :=
| ZeroDivisionError  (* float division by zero *)
| OverflowError      (* a float power out of range, an int too large for a float *)
| ValueError.        (* datetime.date: year out of range *)

(** A call returns a value, raises, or (for the loop, which is run on a
    counter) runs out of steps; the last is shown never to happen. *)
Inductive outcome (A : Type) : Type :=
| Ok (a : A)
| Raise (e : exn)
| OutOfFuel.

Arguments Ok {A} a.
Arguments Raise {A} e.
Arguments OutOfFuel {A}.

Definition bind {A B : Type} (c : outcome A) (k : A -> outcome B) : outcome B :=
  match c with
  | Ok a => k a
  | Raise e => Raise e
  | OutOfFuel => OutOfFuel
  end.

Notation "x <- c ;; k" := (bind c (fun x => k))
  (at level 61, c at next level, right associativity).

(** [a < b] on floats. *)
Definition Qlt_bool (a b : Q) : bool := negb (Qle_bool b a).

(** [x / y] on floats. *)
Definition float_div (x y : Q) : outcome Q :=
  if Qeq_bool y 0 then Raise ZeroDivisionError else Ok (x / y).

(** [int(x)]: truncation toward zero. *)
Definition py_int (x : Q) : Z :=
  if Qle_bool 0 x then Qfloor x else Qceiling x.

(** ** Calendar dates

    What [start + relativedelta(months=+k)] does for [k >= 0], from
    [datetime.date], [calendar.monthrange] and [dateutil.relativedelta]. *)
Module Dateutil.

Record date : Set := mkdate { year : Z; month : Z; day : Z }.

Definition MAXYEAR : Z := 9999.

Definition isleap (y : Z) : bool :=
  ((y mod 4 =? 0) && (negb (y mod 100 =? 0) || (y mod 400 =? 0)))%Z.

Definition mdays (mo : Z) : Z :=
  (if (mo =? 2) then 28
   else if (mo =? 4) || (mo =? 6) || (mo =? 9) || (mo =? 11) then 30
   else 31)%Z.

(** Number of days of month [mo] of year [y]. *)
Definition monthrange (y mo : Z) : Z :=
  (mdays mo + (if (mo =? 2) && isleap y then 1 else 0))%Z.

(** [relativedelta(months=k)] keeps [k mod 12] months and carries
    [k / 12] years; adding it moves the month, carries once more into the
    year, clips the day to the length of the month, and [date.replace]
    refuses a year above [MAXYEAR]. *)
Definition add_months (dt : date) (k : Z) : outcome date :=
  let years := (k / 12)%Z in
  let months := (k mod 12)%Z in
  let y := (year dt + years)%Z in
  let mo := (month dt + months)%Z in
  let y' := (if mo >? 12 then y + 1 else y)%Z in
  let mo' := (if mo >? 12 then mo - 12 else mo)%Z in
  let d := Z.min (monthrange y' mo') (day dt) in
  if (y' >? MAXYEAR)%Z then Raise ValueError else Ok (mkdate y' mo' d).

End Dateutil.
Import Dateutil.

(** ** [compute_emi] *)

Definition compute_emi (principal annual_rate_pct : Q) (months : Z) : outcome Q :=
  if (months <=? 0)%Z then Ok 0
  else
    let r := annual_rate_pct / 12 / 100 in
    if Qeq_bool r 0 then float_div principal (inject_Z months)
    else float_div (principal * r * (1 + r) ^ months) ((1 + r) ^ months - 1).

(** ** [amortization_schedule] *)

(** One row of the schedule (one dict appended to [rows]). *)
Record Row : Type := mkRow {
  installment : Z;            (* "Installment #" *)
  row_date : date;            (* "Date" *)
  opening_balance : Q;        (* "Opening Balance" *)
  emi_excl_extra : Q;         (* "EMI (excl. extra)" *)
  extra_paid : Q;             (* "Extra Payment" *)
  interest : Q;               (* "Interest" *)
  principal_component : Q;    (* "Principal" *)
  total_payment : Q;          (* "Total Payment" *)
  closing_balance : Q         (* "Closing Balance" *)
}.

(** The body of the loop for installment [m] (already incremented), from the
    computation of the interest to the dict that is appended.  Python's
    [min(a, b)] is [b] when [b < a] and [a] otherwise, which is [Qmin a b]. *)
Definition period (r emi extra_payment : Q) (m : Z) (curr_date : date)
    (balance : Q) : Row :=
  let '(interest, principal_component) :=
    if Qeq_bool r 0 then
      (0, Qmin (emi + extra_payment) balance)
    else
      let interest := balance * r in
      (interest, Qmin (emi + extra_payment - interest) balance) in
  let principal_component :=
    if Qlt_bool principal_component 0 then 0 else principal_component in
  let new_balance := balance - principal_component in
  let total_payment := principal_component + interest in
  mkRow m curr_date balance emi extra_payment interest principal_component
        total_payment new_balance.

(** The variables the loop leaves behind. *)
Record loop_state : Type := mkState {
  st_balance : Q;
  st_m : Z;
  st_rows : list Row
}.

(** [while balance > 0 and m < months + 600: ...], one unit of [fuel] per
    evaluation of the loop condition. *)
Fixpoint schedule_loop (fuel : nat) (r emi extra_payment : Q) (months : Z)
    (start : date) (balance : Q) (m : Z) (rows : list Row)
    : outcome loop_state :=
  match fuel with
  | O => OutOfFuel
  | S fuel' =>
      if Qlt_bool 0 balance && (m <? months + 600)%Z then
        let m := (m + 1)%Z in
        curr_date <- add_months start (m - 1) ;;
        let row := period r emi extra_payment m curr_date balance in
        let rows := rows ++ [row] in
        let balance := closing_balance row in
        if Qle_bool balance (1 # 100) then Ok (mkState balance m rows)
        else schedule_loop fuel' r emi extra_payment months start balance m rows
      else Ok (mkState balance m rows)
  end.

Definition set_closing_balance (row : Row) (v : Q) : Row :=
  mkRow (installment row) (row_date row) (opening_balance row)
        (emi_excl_extra row) (extra_paid row) (interest row)
        (principal_component row) (total_payment row) v.

(** [df.loc[df.index[-1], "Closing Balance"] = 0.0] when [df] is not empty. *)
Fixpoint snap_last (rows : list Row) : list Row :=
  match rows with
  | [] => []
  | [row] => [set_closing_balance row 0]
  | row :: rest => row :: snap_last rest
  end.

(** The loop of [amortization_schedule], from its first line to the end of
    the [while]. *)
Definition run_loop (principal annual_rate_pct : Q) (months : Z) (start : date)
    (extra_payment : Q) : outcome loop_state :=
  let r := annual_rate_pct / 12 / 100 in
  emi <- compute_emi principal annual_rate_pct months ;;
  schedule_loop (S (Z.to_nat (months + 600))) r emi extra_payment months start
                principal 0%Z [].

Definition amortization_schedule (principal annual_rate_pct : Q) (months : Z)
    (start : date) (extra_payment : Q) : outcome (list Row) :=
  st <- run_loop principal annual_rate_pct months start extra_payment ;;
  Ok (snap_last (st_rows st)).

(** ** [sensitivity_table] *)

(** A row of the grid: the dict [{"Rate %": r, f"{y}y": emi, ...}].  The
    label [f"{y}y"] is determined by the number [y], so a cell is keyed by
    [y] itself. *)
Record GridRow : Type := mkGridRow {
  rate_pct : Q;
  cells : list (Q * Q)
}.

(** [row[key] = v] on a dict kept in insertion order. *)
Fixpoint dict_set (d : list (Q * Q)) (key v : Q) : list (Q * Q) :=
  match d with
  | [] => [(key, v)]
  | (k, w) :: rest =>
      if Qeq_bool k key then (k, v) :: rest else (k, w) :: dict_set rest key v
  end.

Fixpoint dict_get (d : list (Q * Q)) (key : Q) : option Q :=
  match d with
  | [] => None
  | (k, w) :: rest => if Qeq_bool k key then Some w else dict_get rest key
  end.

(** The inner [for y in years_list] of [sensitivity_table]. *)
Fixpoint grid_cells (principal r : Q) (years_list : list Q)
    (row : list (Q * Q)) : outcome (list (Q * Q)) :=
  match years_list with
  | [] => Ok row
  | y :: rest =>
      let months := py_int (y * 12) in
      e <- compute_emi principal r months ;;
      grid_cells principal r rest (dict_set row y e)
  end.

(** The outer [for r in rate_list], with [out] the rows appended so far. *)
Fixpoint grid_rows (principal : Q) (years_list rate_list : list Q)
    (out : list GridRow) : outcome (list GridRow) :=
  match rate_list with
  | [] => Ok out
  | r :: rest =>
      row <- grid_cells principal r years_list [] ;;
      grid_rows principal years_list rest (out ++ [mkGridRow r row])
  end.

(** [st.cache_data] memoises a pure function and is left out. *)
Definition sensitivity_table (principal base_rate : Q)
    (years_list rate_list : list Q) : outcome (list GridRow) :=
  grid_rows principal years_list rate_list [].

(** ** Definitions the statements use *)

Definition jan2024 : date := mkdate 2024 1 1.

(** The monthly rate of an annual percentage ([r] in both functions). *)
Definition monthly_rate (annual_rate_pct : Q) : Q := annual_rate_pct / 12 / 100.

(** The closed form of the specification:
    [principal * r * (1+r)^months / ((1+r)^months - 1)]. *)
Definition emi_closed_form (principal annual_rate_pct : Q) (months : Z) : Q :=
  let r := monthly_rate annual_rate_pct in
  principal * r * (1 + r) ^ months / ((1 + r) ^ months - 1).

(** Present value of [j] unit payments at the growth factor [x]:
    [1/x + 1/x^2 + ... + 1/x^j]. *)
Fixpoint annuity (x : Q) (j : nat) : Q :=
  match j with
  | O => 0
  | S j' => (1 + annuity x j') / x
  end.

(** The rows one run of the loop appends, from balance [b] and counter [m],
    and the balance and counter it ends with: the loop condition fails
    ([runs_exit]), the body ends in [break] ([runs_break]), or the body is
    followed by the rest of the run ([runs_step]). *)
Inductive runs (r e x : Q) (N : Z) (s : date)
    : Q -> Z -> list Row -> Q -> Z -> Prop :=
| runs_exit (b : Q) (m : Z) :
    b <= 0 \/ (N + 600 <= m)%Z ->
    runs r e x N s b m [] b m
| runs_break (b : Q) (m : Z) (d : date) :
    0 < b -> (m < N + 600)%Z -> add_months s m = Ok d ->
    closing_balance (period r e x (m + 1) d b) <= 1 # 100 ->
    runs r e x N s b m [period r e x (m + 1) d b]
         (closing_balance (period r e x (m + 1) d b)) (m + 1)
| runs_step (b : Q) (m : Z) (d : date) (rest : list Row) (bf : Q) (mf : Z) :
    0 < b -> (m < N + 600)%Z -> add_months s m = Ok d ->
    1 # 100 < closing_balance (period r e x (m + 1) d b) ->
    runs r e x N s (closing_balance (period r e x (m + 1) d b)) (m + 1)
         rest bf mf ->
    runs r e x N s b m (period r e x (m + 1) d b :: rest) bf mf.


(** Sum of the "Principal" column. *)
Definition total_principal (rows : list Row) : Q :=
  fold_right (fun row acc => principal_component row + acc) 0 rows.

(** Every cell present in a grid row holds the EMI of its tenure. *)
Definition cells_ok (P r : Q) (row : list (Q * Q)) : Prop :=
  forall k v, dict_get row k = Some v ->
              compute_emi P r (py_int (k * 12)) = Ok v.

(** ** The calculation behind the "Calculate" button *)

(** The values the sidebar widgets hand to the script. *)
Record Inputs : Type := mkInputs {
  income : Q;
  existing_emi : Q;          (* 0.0 unless "I have existing EMIs" is ticked *)
  co_income : Q;             (* 0.0 unless a co-applicant is added *)
  property_value : Q;
  deposit_perc : Z;          (* slider, 0 .. 90 *)
  rate : Q;                  (* slider, 0.0 .. 25.0 *)
  tenure_years : Z;          (* slider, 1 .. 40 *)
  start_date : date;
  extra_monthly : Q;         (* 0.0 unless the advanced options are shown *)
  processing_fee_rate : Q;
  insurance_rate : Q;
  finance_fees : bool
}.

(** What the widgets guarantee ([min_value], [max_value]). *)
Definition widget_ranges (i : Inputs) : Prop :=
  0 <= income i /\ 0 <= existing_emi i /\ 0 <= co_income i /\
  0 <= property_value i /\
  (0 <= deposit_perc i <= 90)%Z /\
  0 <= rate i /\ rate i <= 25 /\
  (1 <= tenure_years i <= 40)%Z /\
  0 <= extra_monthly i /\
  0 <= processing_fee_rate i /\ 0 <= insurance_rate i.

(** [float(sched[col].sum()) if not sched.empty else 0.0]. *)
Definition column_total (col : Row -> Q) (sched : list Row) : Q :=
  match sched with
  | [] => 0
  | _ => fold_right (fun row acc => col row + acc) 0 sched
  end.

(** The variables of the script after the "Compute" block. *)
Record Results : Type := mkResults {
  deposit : Q;
  loan_amount : Q;
  months : Z;
  processing_fee : Q;
  insurance_fee : Q;
  financed_principal : Q;
  emi : Q;
  sched : list Row;
  total_interest : Q;
  total_paid : Q;
  payoff_date : date;
  upfront_cash : Q;
  total_project_cost : Q;
  household_income : Q;
  affordability_ratio : Q;
  progress_value : Q;        (* min(1.0, affordability_ratio), for st.progress *)
  manageable : bool          (* affordability_ratio <= max_safe_ratio *)
}.

(** The script either stops on [st.error] / [st.stop()] or goes on to show
    its results. *)
Inductive page : Type :=
| Stopped
| Shown (res : Results).

(** [max_safe_ratio = 0.4]: the float the literal denotes,
    [3602879701896397 / 2^53], a little above 4/10. *)
Definition max_safe_ratio : Q := 3602879701896397 # 9007199254740992.

(** The "Compute" block under [if calc:], down to the affordability
    verdict.  Python's [max(a, b)] is [b] when [b > a] and [a] otherwise,
    which is [Qmax a b]; [sched["Date"].iloc[-1] if not sched.empty else
    start_date] is [last] with [start_date] as default. *)
Definition calculate (i : Inputs) : outcome page :=
  let deposit := property_value i * inject_Z (deposit_perc i) / 100 in
  let loan_amount := Qmax (property_value i - deposit) 0 in
  let months := (tenure_years i * 12)%Z in
  if Qle_bool loan_amount 0 then Ok Stopped
  else
    let processing_fee := loan_amount * processing_fee_rate i / 100 in
    let insurance_fee := loan_amount * insurance_rate i / 100 in
    let financed_principal :=
      loan_amount
      + (if finance_fees i then processing_fee + insurance_fee else 0) in
    emi <- compute_emi financed_principal (rate i) months ;;
    sched <- amortization_schedule financed_principal (rate i) months
                                   (start_date i) (extra_monthly i) ;;
    let total_interest := column_total interest sched in
    let total_paid := column_total total_payment sched in
    let payoff_date := last (map row_date sched) (start_date i) in
    let upfront_cash :=
      deposit
      + (if finance_fees i then 0 else processing_fee + insurance_fee) in
    let total_project_cost := upfront_cash + total_paid in
    let household_income := income i + co_income i in
    affordability_ratio <-
      (if Qeq_bool household_income 0 then Ok 0
       else float_div (emi + existing_emi i) household_income) ;;
    Ok (Shown (mkResults deposit loan_amount months processing_fee
                         insurance_fee financed_principal emi sched
                         total_interest total_paid payoff_date upfront_cash
                         total_project_cost household_income
                         affordability_ratio
                         (Qmin 1 affordability_ratio)
                         (Qle_bool affordability_ratio max_safe_ratio))).

(** ** The tenure axis of the sensitivity tab *)

(** [list(range(start, stop, step))] for [step > 0]. *)
Definition py_range (start stop step : Z) : list Z :=
  map (fun k => (start + Z.of_nat k * step)%Z)
      (seq 0 (Z.to_nat ((stop - start + step - 1) / step))).

(** [list(range(max(1, tenure_years - 10), tenure_years + 11, 2))]. *)
Definition tenure_axis (tenure_years : Z) : list Z :=
  py_range (Z.max 1 (tenure_years - 10)) (tenure_years + 11) 2.

(** The widgets' default values, with a term of one year at rate 0. *)
Definition sample_inputs : Inputs :=
  mkInputs 80000 0 0 5000000 20 0 1 jan2024 0 (1 # 2) 0 false.

(** ** The same code on binary64 floats

    The definitions above compute on exact rationals.  [Binary64] embeds
    [compute_emi] and [amortization_schedule] once more on the floats the
    program really computes with: IEEE 754 binary64 with round to nearest
    even, as Rocq's primitive floats implement it, with Python's exceptions.
    [+], [-] and [*] on floats never raise (they return an infinity or a
    NaN); [/] raises [ZeroDivisionError] on a zero divisor; [**] raises
    [OverflowError] when the result is out of range. *)
Module Binary64.

Import PrimFloat SpecFloat FloatOps.
Local Open Scope float_scope.

(** An [int] used where a float is expected ([PyLong_AsDouble]): the nearest
    float, or [OverflowError] when the integer is too large. *)
Definition float_of_int (n : Z) : outcome float :=
  let f := SF2Prim (binary_normalize prec emax n 0 false) in
  if is_infinity f then Raise OverflowError else Ok f.

(** [x / y] on floats. *)
Definition float_div (x y : float) : outcome float :=
  if y =? 0 then Raise ZeroDivisionError else Ok (x / y).

(** Python's [min(a, b)]: [b] when [b < a], [a] otherwise. *)
Definition py_min (a b : float) : float := if b <? a then b else a.

(** Whether a float is an odd integer ([fmod(fabs(w), 2.0) == 1.0]). *)
Definition is_odd (w : float) : bool :=
  match Prim2SF w with
  | S754_finite _ m e =>
      if (0 <=? e)%Z then (e =? 0)%Z && Z.odd (Zpos m)
      else ((Zpos m mod 2 ^ (- e) =? 0) && Z.odd (Zpos m / 2 ^ (- e)))%Z
  | _ => false
  end.


(** The correctly rounded power of a positive float [x] to a positive
    integer float [w] of value [k]: [x = m * 2^e] gives
    [x^k = m^k * 2^(e*k)], rounded once.  It stands for C's [pow] where a
    call is evaluated at concrete inputs. *)
Definition pow_cr (x w : float) : float :=
  match Prim2SF x, Prim2SF w with
  | S754_finite false m e, S754_finite false mw ew =>
      let k := (if 0 <=? ew then Zpos mw * 2 ^ ew
                else Zpos mw / 2 ^ (- ew))%Z in
      SF2Prim (binary_normalize prec emax (Zpos m ^ k) (e * k) false)
  | _, _ => nan
  end.

Section Pow.

(** C's [pow] on doubles, which [float.__pow__] calls for the general case.
    What follows holds for every such function. *)
Variable libm_pow : float -> float -> float.

(** [v ** n] for a float [v] and an [int] [n], after CPython's [float_pow]:
    the exponent is converted to a float, the special cases are decided
    without calling [pow], and an infinite result of [pow] is reported as
    [OverflowError]. *)
Definition float_pow (v : float) (n : Z) : outcome float :=
  w <- float_of_int n ;;
  if w =? 0 then Ok 1
  else if is_nan v then Ok v
  else if is_infinity v then
    if 0 <? w then Ok (if is_odd w then v else abs v)
    else Ok (if is_odd w && (v <? 0) then - 0 else 0)
  else if v =? 0 then
    if w <? 0 then Raise ZeroDivisionError
    else Ok (if is_odd w then v else 0)
  else
    let negate_result := (v <? 0) && is_odd w in
    let v := if v <? 0 then - v else v in
    if v =? 1 then Ok (if negate_result then - 1 else 1)
    else
      let x := libm_pow v w in
      let x := if negate_result then - x else x in
      if is_infinity x then Raise OverflowError else Ok x.

(** [compute_emi].  The divisions by the literals 12 and 100 cannot raise;
    [months] is converted to a float where it divides; [(1 + r) ** months]
    is evaluated twice, as the source writes it. *)
Definition compute_emi (principal annual_rate_pct : float) (months : Z)
    : outcome float :=
  if (months <=? 0)%Z then Ok 0
  else
    let r := annual_rate_pct / 12 / 100 in
    if r =? 0 then
      n <- float_of_int months ;;
      float_div principal n
    else
      p <- float_pow (1 + r) months ;;
      q <- float_pow (1 + r) months ;;
      float_div (principal * r * p) (q - 1).

(** One row of the schedule. *)
Record Row : Type := mkRow {
  installment : Z;            (* "Installment #" *)
  row_date : date;            (* "Date" *)
  opening_balance : float;    (* "Opening Balance" *)
  emi_excl_extra : float;     (* "EMI (excl. extra)" *)
  extra_paid : float;         (* "Extra Payment" *)
  interest : float;           (* "Interest" *)
  principal_component : float;  (* "Principal" *)
  total_payment : float;      (* "Total Payment" *)
  closing_balance : float     (* "Closing Balance" *)
}.

(** The body of the loop for installment [m] (already incremented). *)
Definition period (r emi extra_payment : float) (m : Z) (curr_date : date)
    (balance : float) : Row :=
  let '(interest, principal_component) :=
    if r =? 0 then
      (0, py_min (emi + extra_payment) balance)
    else
      let interest := balance * r in
      (interest, py_min (emi + extra_payment - interest) balance) in
  let principal_component :=
    if principal_component <? 0 then 0 else principal_component in
  let new_balance := balance - principal_component in
  let total_payment := principal_component + interest in
  mkRow m curr_date balance emi extra_payment interest principal_component
        total_payment new_balance.

(** The variables the loop leaves behind. *)
Record loop_state : Type := mkState {
  st_balance : float;
  st_m : Z;
  st_rows : list Row
}.

(** The literal [0.01] of the [break] test: the float nearest to 1/100,
    [5764607523034235 / 2^59], a little above 1/100. *)
Definition epsilon : float := 0x1.47ae147ae147bp-7.

(** [while balance > 0 and m < months + 600: ...], one unit of [fuel] per
    evaluation of the loop condition. *)
Fixpoint schedule_loop (fuel : nat) (r emi extra_payment : float) (months : Z)
    (start : date) (balance : float) (m : Z) (rows : list Row)
    : outcome loop_state :=
  match fuel with
  | O => OutOfFuel
  | S fuel' =>
      if (0 <? balance) && (m <? months + 600)%Z then
        let m := (m + 1)%Z in
        curr_date <- add_months start (m - 1) ;;
        let row := period r emi extra_payment m curr_date balance in
        let rows := rows ++ [row] in
        let balance := closing_balance row in
        if balance <=? epsilon then Ok (mkState balance m rows)
        else schedule_loop fuel' r emi extra_payment months start balance m rows
      else Ok (mkState balance m rows)
  end.

Definition set_closing_balance (row : Row) (v : float) : Row :=
  mkRow (installment row) (row_date row) (opening_balance row)
        (emi_excl_extra row) (extra_paid row) (interest row)
        (principal_component row) (total_payment row) v.

(** [df.loc[df.index[-1], "Closing Balance"] = 0.0] when [df] is not empty. *)
Fixpoint snap_last (rows : list Row) : list Row :=
  match rows with
  | [] => []
  | [row] => [set_closing_balance row 0]
  | row :: rest => row :: snap_last rest
  end.

(** The loop of [amortization_schedule], from its first line to the end of
    the [while]. *)
Definition run_loop (principal annual_rate_pct : float) (months : Z)
    (start : date) (extra_payment : float) : outcome loop_state :=
  let r := annual_rate_pct / 12 / 100 in
  emi <- compute_emi principal annual_rate_pct months ;;
  schedule_loop (S (Z.to_nat (months + 600))) r emi extra_payment months start
                principal 0%Z [].

Definition amortization_schedule (principal annual_rate_pct : float)
    (months : Z) (start : date) (extra_payment : float)
    : outcome (list Row) :=
  st <- run_loop principal annual_rate_pct months start extra_payment ;;
  Ok (snap_last (st_rows st)).

End Pow.



End Binary64.

(** ** The model on concrete inputs *)

Example emi_zero_rate : compute_emi 1200 0 12 = Ok (1200 / 12).
Proof. reflexivity. Qed.

Example emi_zero_months : compute_emi 1000 9 0 = Ok 0.
Proof. reflexivity. Qed.

(** The scenario of the specification: 1,000,000 at 9% over 240 months is
    8,997.26 to two decimal places. *)
Example emi_scenario :
  match compute_emi 1000000 9 240 with
  | Ok e => Qle_bool (899725 # 100) e && Qle_bool e (899726 # 100)
  | _ => false
  end = true.
Proof. vm_compute. reflexivity. Qed.

Example schedule_zero_rate :
  exists rows,
    amortization_schedule 1200 0 3 jan2024 0 = Ok rows /\
    map installment rows = [1; 2; 3]%Z /\
    map (fun row => month (row_date row)) rows = [1; 2; 3]%Z /\
    map (fun row => Qred (principal_component row)) rows = [400; 400; 400] /\
    map (fun row => Qred (closing_balance row)) rows = [800; 400; 0].
Proof.
  eexists. split; [vm_compute; reflexivity|]. repeat split; reflexivity.
Qed.

Example month_end_is_clipped :
  add_months (mkdate 2024 1 31) 1 = Ok (mkdate 2024 2 29) /\
  add_months (mkdate 2023 11 30) 3 = Ok (mkdate 2024 2 29) /\
  add_months (mkdate 9999 12 1) 1 = Raise ValueError.
Proof. repeat split. Qed.

(** * Properties *)

(** ** Rationals *)
Lemma Qlt_bool_iff (a b : Q) : Qlt_bool a b = true <-> a < b.
Proof.
  unfold Qlt_bool. rewrite negb_true_iff, <- not_true_iff_false, Qle_bool_iff.
  split; [apply Qnot_le_lt | apply Qlt_not_le].
Qed.

Lemma Qlt_bool_false_iff (a b : Q) : Qlt_bool a b = false <-> b <= a.
Proof.
  unfold Qlt_bool. rewrite negb_false_iff. apply Qle_bool_iff.
Qed.

Lemma Qle_bool_false_iff (a b : Q) : Qle_bool a b = false <-> b < a.
Proof.
  rewrite <- not_true_iff_false, Qle_bool_iff.
  split; [apply Qnot_le_lt | apply Qlt_not_le].
Qed.

Lemma Qeq_bool_false_iff (a b : Q) : Qeq_bool a b = false <-> ~ a == b.
Proof.
  rewrite <- not_true_iff_false, Qeq_bool_iff. tauto.
Qed.

Lemma monthly_rate_eq a : monthly_rate a == a / 1200.
Proof. unfold monthly_rate. field. Qed.

Lemma monthly_rate_pos a : 0 < a -> 0 < monthly_rate a.
Proof. intros H. rewrite monthly_rate_eq. apply Qlt_shift_div_l; lra. Qed.

Lemma monthly_rate_nonneg a : 0 <= a -> 0 <= monthly_rate a.
Proof. intros H. rewrite monthly_rate_eq. apply Qle_shift_div_l; lra. Qed.

Lemma monthly_rate_lt a b : a < b -> monthly_rate a < monthly_rate b.
Proof.
  intros H. rewrite !monthly_rate_eq. 
  apply Qlt_shift_div_l; [lra|]. 
  setoid_replace (a / 1200 * 1200) with a by field. exact H.
Qed.

Lemma Qpower_succ (x : Q) (k : nat) :
  x ^ Z.of_nat (S k) == x * x ^ Z.of_nat k.
Proof.
  rewrite Nat2Z.inj_succ, <- Z.add_1_l.
  rewrite Qpower_plus' by lia. now rewrite Qpower_1_r.
Qed.

Lemma annuity_nonneg x j : 0 < x -> 0 <= annuity x j.
Proof.
  intros Hx. induction j as [|j IH]; simpl; [lra|].
  apply Qle_shift_div_l; lra.
Qed.

Lemma annuity_pos x j : 0 < x -> 0 < annuity x (S j).
Proof.
  intros Hx. simpl. pose proof (annuity_nonneg x j Hx).
  apply Qlt_shift_div_l; lra.
Qed.

Lemma annuity_step x j : 0 < x -> x * annuity x (S j) == 1 + annuity x j.
Proof. intros Hx. simpl. field. lra. Qed.

Lemma annuity_closed (r : Q) (j : nat) :
  0 < 1 + r ->
  r * (1 + r) ^ Z.of_nat j * annuity (1 + r) j == (1 + r) ^ Z.of_nat j - 1.
Proof.
  intros Hx. induction j as [|j IH].
  - simpl. ring.
  - rewrite Qpower_succ.
    transitivity (r * (1 + r) ^ Z.of_nat j * ((1 + r) * annuity (1 + r) (S j))); [ring|].
    rewrite annuity_step by exact Hx.
    transitivity (r * (1 + r) ^ Z.of_nat j
                  + r * (1 + r) ^ Z.of_nat j * annuity (1 + r) j); [ring|].
    rewrite IH. ring.
Qed.

Lemma annuity_one (j : nat) : annuity 1 j == inject_Z (Z.of_nat j).
Proof.
  induction j as [|j IH]; [reflexivity|].
  simpl annuity. rewrite IH, Nat2Z.inj_succ. unfold Z.succ.
  rewrite inject_Z_plus. field.
Qed.

#[export] Instance annuity_comp : Proper (Qeq ==> eq ==> Qeq) annuity.
Proof.
  intros x y Hxy j j' <-. induction j as [|j IH]; simpl; [reflexivity|].
  now rewrite IH, Hxy.
Qed.

Lemma inject_Z_pos_neq (n : Z) : (0 < n)%Z -> Qeq_bool (inject_Z n) 0 = false.
Proof.
  intros Hn. apply Qeq_bool_false_iff. intros H.
  assert (H0 : inject_Z 0 < inject_Z n) by (rewrite <- Zlt_Qlt; exact Hn).
  rewrite H in H0. now apply Qlt_irrefl in H0.
Qed.

Lemma months_positive (n : Z) : (0 < n)%Z -> (n <=? 0)%Z = false.
Proof. intros. apply Z.leb_gt. assumption. Qed.

(** For a non-negative rate and a positive term [compute_emi] returns, and
    its result times the annuity factor is the principal. *)
Lemma compute_emi_annuity (P a : Q) (n : Z) :
  0 <= a -> (0 < n)%Z ->
  exists e, compute_emi P a n = Ok e /\
            e * annuity (1 + monthly_rate a) (Z.to_nat n) == P.
Proof.
  intros Ha Hn. unfold compute_emi. rewrite months_positive by exact Hn.
  fold (monthly_rate a). pose proof (monthly_rate_nonneg a Ha) as Hr.
  set (r := monthly_rate a) in *.
  destruct (Qeq_bool r 0) eqn:Er.
  - apply Qeq_bool_iff in Er. unfold float_div.
    rewrite inject_Z_pos_neq by exact Hn.
    eexists; split; [reflexivity|].
    rewrite Er. setoid_replace (1 + 0) with 1 by ring.
    rewrite annuity_one, Z2Nat.id by lia.
    field. intros H. apply Qeq_bool_iff in H.
    rewrite inject_Z_pos_neq in H by exact Hn. discriminate.
  - apply Qeq_bool_false_iff in Er.
    assert (Hr' : 0 < r) by (destruct (Qlt_le_dec 0 r) as [H|H]; [exact H|]; exfalso; apply Er; lra).
    assert (Hpow : 1 < (1 + r) ^ n) by (apply Qpower_1_lt; [lra | exact Hn]).
    unfold float_div.
    destruct (Qeq_bool ((1 + r) ^ n - 1) 0) eqn:Ed.
    { apply Qeq_bool_iff in Ed. lra. }
    eexists; split; [reflexivity|].
    pose proof (annuity_closed r (Z.to_nat n) ltac:(lra)) as Hc.
    rewrite Z2Nat.id in Hc by lia.
    set (A := annuity (1 + r) (Z.to_nat n)) in *.
    set (X := (1 + r) ^ n) in *.
    transitivity (P * (r * X * A) / (X - 1)).
    + field. lra.
    + rewrite Hc. field. lra.
Qed.

Lemma Qdiv_le_cross (a b c d : Q) :
  0 < b -> 0 < d -> a * d <= c * b -> a / b <= c / d.
Proof.
  intros Hb Hd H. apply Qle_shift_div_r; [exact Hb|].
  setoid_replace (c / d * b) with (c * b / d) by (field; lra).
  apply Qle_shift_div_l; [exact Hd | exact H].
Qed.

Lemma Qdiv_lt_cross (a b c d : Q) :
  0 < b -> 0 < d -> a * d < c * b -> a / b < c / d.
Proof.
  intros Hb Hd H. apply Qlt_shift_div_r; [exact Hb|].
  setoid_replace (c / d * b) with (c * b / d) by (field; lra).
  apply Qlt_shift_div_l; [exact Hd | exact H].
Qed.

Lemma annuity_antitone (x1 x2 : Q) (j : nat) :
  0 < x1 -> x1 <= x2 -> annuity x2 j <= annuity x1 j.
Proof.
  intros H1 H12. induction j as [|j IH]; simpl; [lra|].
  pose proof (annuity_nonneg x2 j ltac:(lra)).
  apply Qdiv_le_cross; [lra | lra | nra].
Qed.

Lemma annuity_strict (x1 x2 : Q) (j : nat) :
  0 < x1 -> x1 < x2 -> annuity x2 (S j) < annuity x1 (S j).
Proof.
  intros H1 H12. simpl.
  pose proof (annuity_antitone x1 x2 j H1 ltac:(lra)).
  pose proof (annuity_nonneg x2 j ltac:(lra)).
  apply Qdiv_lt_cross; [lra | lra | nra].
Qed.

(** In exact arithmetic [compute_emi] is strictly increasing in the rate:
    for a positive principal, a positive number of months and annual rates
    [0 < a1 < a2], both calls return and the EMI at [a1] is strictly below
    the EMI at [a2].  On floats this fails
    ([b64_compute_emi_not_increasing_in_rate]). *)
Theorem compute_emi_strictly_increasing_in_rate (P a1 a2 : Q) (n : Z) :
  0 < P -> (0 < n)%Z -> 0 < a1 -> a1 < a2 ->
  exists e1 e2,
    compute_emi P a1 n = Ok e1 /\ compute_emi P a2 n = Ok e2 /\ e1 < e2.
Proof.
  intros HP Hn Ha1 Ha12.
  destruct (compute_emi_annuity P a1 n ltac:(lra) Hn) as (e1 & E1 & H1).
  destruct (compute_emi_annuity P a2 n ltac:(lra) Hn) as (e2 & E2 & H2).
  exists e1, e2. repeat split; try assumption.
  pose proof (monthly_rate_pos a1 Ha1) as Hr1.
  pose proof (monthly_rate_lt a1 a2 Ha12) as Hr12.
  destruct (Z.to_nat n) as [|j] eqn:Ej; [lia|].
  pose proof (annuity_strict (1 + monthly_rate a1) (1 + monthly_rate a2) j
                ltac:(lra) ltac:(lra)) as HA.
  pose proof (annuity_pos (1 + monthly_rate a2) j ltac:(lra)) as HA2.
  set (A1 := annuity (1 + monthly_rate a1) (S j)) in *.
  set (A2 := annuity (1 + monthly_rate a2) (S j)) in *.
  assert (0 < e2) by nra.
  nra.
Qed.

(** *** Where the denominator of the closed form vanishes *)

Lemma Qpower_unit_interval (y : Q) (k : nat) :
  0 <= y -> y <= 1 -> 0 <= y ^ Z.of_nat k /\ y ^ Z.of_nat k <= 1.
Proof.
  intros H0 H1. induction k as [|k [IH0 IH1]].
  - simpl. lra.
  - rewrite Qpower_succ. split; nra.
Qed.

Lemma Qpower_eq_1_nonneg (y : Q) (n : Z) :
  (0 < n)%Z -> 0 <= y -> y ^ n == 1 -> y == 1.
Proof.
  intros Hn Hy H.
  destruct (Qlt_le_dec 1 y) as [Hgt|Hle].
  - pose proof (Qpower_1_lt y n Hgt Hn). lra.
  - destruct (Qlt_le_dec y 1) as [Hlt|Hge]; [|lra].
    exfalso. rewrite <- (Z2Nat.id n) in H by lia.
    destruct (Z.to_nat n) as [|k] eqn:Ek; [lia|].
    rewrite Qpower_succ in H.
    destruct (Qpower_unit_interval y k Hy Hle) as [P0 P1]. nra.
Qed.

Lemma Qpower_minus_one_odd (n : Z) :
  (0 < n)%Z -> Z.even n = false -> (-1) ^ n == -1.
Proof.
  intros Hn Hodd.
  assert (Hn' : Z.odd n = true) by (now rewrite <- Z.negb_even, Hodd).
  apply Z.odd_spec in Hn'. destruct Hn' as [k ->].
  rewrite Qpower_plus', Qpower_mult by lia.
  setoid_replace ((-1) ^ 2) with 1 by reflexivity.
  rewrite Qpower_1. reflexivity.
Qed.

Lemma Qpower_minus_one_even (n : Z) :
  (0 < n)%Z -> Z.even n = true -> (-1) ^ n == 1.
Proof.
  intros Hn Hev. apply Z.even_spec in Hev. destruct Hev as [k ->].
  rewrite Qpower_mult.
  setoid_replace ((-1) ^ 2) with 1 by reflexivity.
  apply Qpower_1.
Qed.

Lemma Qpower_eq_1 (x : Q) (n : Z) :
  (0 < n)%Z -> x ^ n == 1 -> x == 1 \/ (x == -1 /\ Z.even n = true).
Proof.
  intros Hn H.
  assert (Hsq : (x * x) ^ n == 1) by (rewrite Qmult_power, H; ring).
  apply Qpower_eq_1_nonneg in Hsq; [|exact Hn|nra].
  destruct (Qlt_le_dec x 0) as [Hneg|Hpos].
  - right. assert (Hx : x == -1) by nra. split; [exact Hx|].
    destruct (Z.even n) eqn:Ev; [reflexivity|exfalso].
    rewrite Hx, Qpower_minus_one_odd in H by assumption. discriminate H.
  - left. nra.
Qed.

(** In exact arithmetic [compute_emi] returns 0 when [months <= 0]; for a
    positive number of months it returns [principal / months] when the
    monthly rate is 0, and otherwise the closed form
    [principal * r * (1+r)^months / ((1+r)^months - 1)], for every
    principal and every annual rate except -2400 with an even number of
    months, where the denominator of the closed form is zero and the call
    raises [ZeroDivisionError].  On floats the denominator is zero at other
    rates too ([b64_compute_emi_cases]). *)
Theorem compute_emi_closed_form (P a : Q) (n : Z) :
  ((n <= 0)%Z -> compute_emi P a n = Ok 0) /\
  ((0 < n)%Z -> monthly_rate a == 0 ->
     compute_emi P a n = Ok (P / inject_Z n)) /\
  ((0 < n)%Z -> ~ monthly_rate a == 0 ->
     ~ (a == -2400 /\ Z.even n = true) ->
     compute_emi P a n = Ok (emi_closed_form P a n)) /\
  ((0 < n)%Z -> a == -2400 -> Z.even n = true ->
     compute_emi P a n = Raise ZeroDivisionError).
Proof.
  unfold compute_emi, emi_closed_form. fold (monthly_rate a).
  split; [|split; [|split]].
  - intros Hn. apply Z.leb_le in Hn. now rewrite Hn.
  - intros Hn Hr. rewrite months_positive by exact Hn.
    apply Qeq_bool_iff in Hr. rewrite Hr. unfold float_div.
    now rewrite inject_Z_pos_neq.
  - intros Hn Hr Hex. rewrite months_positive by exact Hn.
    apply Qeq_bool_false_iff in Hr. rewrite Hr. unfold float_div.
    destruct (Qeq_bool ((1 + monthly_rate a) ^ n - 1) 0) eqn:Ed; [|reflexivity].
    exfalso. apply Qeq_bool_iff in Ed.
    assert (Hp : (1 + monthly_rate a) ^ n == 1) by lra.
    apply Qeq_bool_false_iff in Hr.
    destruct (Qpower_eq_1 _ _ Hn Hp) as [H1|[H1 Hev]].
    + apply Hr. lra.
    + apply Hex. split; [|exact Hev].
      rewrite monthly_rate_eq in H1.
      setoid_replace a with (a / 1200 * 1200) by field.
      setoid_replace (a / 1200) with (-2) by lra. reflexivity.
  - intros Hn Ha Hev. rewrite months_positive by exact Hn.
    assert (Hr : monthly_rate a == -2)
      by (rewrite monthly_rate_eq, Ha; reflexivity).
    assert (Hr0 : Qeq_bool (monthly_rate a) 0 = false)
      by (apply Qeq_bool_false_iff; rewrite Hr; intros H; discriminate H).
    rewrite Hr0. unfold float_div.
    assert (Hd : Qeq_bool ((1 + monthly_rate a) ^ n - 1) 0 = true).
    { apply Qeq_bool_iff. rewrite Hr.
      setoid_replace (1 + -2) with (-1) by reflexivity.
      rewrite Qpower_minus_one_even by assumption. reflexivity. }
    now rewrite Hd.
Qed.

(** ** One period *)

Ltac minmax_case_of spec t :=
  let H := fresh "Hm" in
  let v := fresh "v" in
  pose proof spec as H; set (v := t) in *; clearbody v;
  destruct H as [[? H]|[? H]].

Ltac minmax_cases :=
  repeat match goal with
  | |- context [Qmin ?a ?b] => minmax_case_of (Q.min_spec a b) (Qmin a b)
  | _ : context [Qmin ?a ?b] |- _ => minmax_case_of (Q.min_spec a b) (Qmin a b)
  | |- context [Qmax ?a ?b] => minmax_case_of (Q.max_spec a b) (Qmax a b)
  | _ : context [Qmax ?a ?b] |- _ => minmax_case_of (Q.max_spec a b) (Qmax a b)
  end.

Ltac bool_cases :=
  repeat match goal with
  | |- context [Qlt_bool ?a ?b] =>
      let E := fresh "E" in
      destruct (Qlt_bool a b) eqn:E;
      [apply Qlt_bool_iff in E | apply Qlt_bool_false_iff in E]
  | |- context [Qle_bool ?a ?b] =>
      let E := fresh "E" in
      destruct (Qle_bool a b) eqn:E;
      [apply Qle_bool_iff in E | apply Qle_bool_false_iff in E]
  | |- context [Qeq_bool ?a ?b] =>
      let E := fresh "E" in
      destruct (Qeq_bool a b) eqn:E;
      [apply Qeq_bool_iff in E | apply Qeq_bool_false_iff in E]
  end.

Lemma period_closing (r e x : Q) (m : Z) (d : date) (b : Q) :
  closing_balance (period r e x m d b)
  = opening_balance (period r e x m d b)
    - principal_component (period r e x m d b).
Proof. unfold period. destruct (Qeq_bool r 0); reflexivity. Qed.

Lemma period_opening (r e x : Q) (m : Z) (d : date) (b : Q) :
  opening_balance (period r e x m d b) = b.
Proof. unfold period. destruct (Qeq_bool r 0); reflexivity. Qed.

Lemma period_principal_bounds (r e x : Q) (m : Z) (d : date) (b : Q) :
  0 < b ->
  0 <= principal_component (period r e x m d b) /\
  principal_component (period r e x m d b) <= b.
Proof.
  intros Hb. unfold period.
  destruct (Qeq_bool r 0); simpl; bool_cases; minmax_cases; split; lra.
Qed.

(** The closing balance of a period: the balance grown by the rate, less
    the payment, kept between zero and the opening balance. *)
Lemma period_closing_formula (r e x : Q) (m : Z) (d : date) (b : Q) :
  closing_balance (period r e x m d b)
  == Qmin (Qmax (b * (1 + r) - (e + x)) 0) b.
Proof.
  unfold period.
  destruct (Qeq_bool r 0) eqn:Er; simpl.
  - apply Qeq_bool_iff in Er.
    assert (Hbr : b * r == 0) by (rewrite Er; ring).
    bool_cases; minmax_cases; nra.
  - bool_cases; minmax_cases; nra.
Qed.

Lemma period_closing_monotone (r e x x' : Q) (m m' : Z) (d d' : date) (b b' : Q) :
  0 <= 1 + r -> b' <= b -> x <= x' ->
  closing_balance (period r e x' m' d' b')
  <= closing_balance (period r e x m d b).
Proof.
  intros Hr Hb Hx. rewrite !period_closing_formula.
  assert (b' * (1 + r) <= b * (1 + r)) by nra.
  minmax_cases; nra.
Qed.

Ltac runs_induction H :=
  induction H as [b m Hexit
                 | b m d Hb Hm Hd Hc
                 | b m d rest bf mf Hb Hm Hd Hc Hrest IH].

(** ** The loop *)

Section Loop.

Variables (r e x : Q) (N : Z) (s : date).

(** One evaluation of the loop condition and, if it holds, of the body. *)
Lemma schedule_loop_unfold (fuel : nat) (b : Q) (m : Z) (rows : list Row) :
  schedule_loop (S fuel) r e x N s b m rows =
  if Qlt_bool 0 b && (m <? N + 600)%Z then
    match add_months s m with
    | Ok d =>
        let row := period r e x (m + 1) d b in
        if Qle_bool (closing_balance row) (1 # 100)
        then Ok (mkState (closing_balance row) (m + 1) (rows ++ [row]))
        else schedule_loop fuel r e x N s (closing_balance row) (m + 1)
                           (rows ++ [row])
    | Raise ex => Raise ex
    | OutOfFuel => OutOfFuel
    end
  else Ok (mkState b m rows).
Proof.
  simpl. replace (m + 1 - 1)%Z with m by lia.
  destruct (Qlt_bool 0 b && (m <? N + 600)%Z); [|reflexivity].
  destruct (add_months s m); reflexivity.
Qed.

Lemma loop_condition (b : Q) (m : Z) :
  Qlt_bool 0 b && (m <? N + 600)%Z = true <-> 0 < b /\ (m < N + 600)%Z.
Proof. now rewrite andb_true_iff, Qlt_bool_iff, Z.ltb_lt. Qed.

Lemma loop_condition_false (b : Q) (m : Z) :
  Qlt_bool 0 b && (m <? N + 600)%Z = false <-> b <= 0 \/ (N + 600 <= m)%Z.
Proof. now rewrite andb_false_iff, Qlt_bool_false_iff, Z.ltb_ge. Qed.

Lemma loop_runs (fuel : nat) :
  forall (b : Q) (m : Z) (rows : list Row) (st : loop_state),
    schedule_loop fuel r e x N s b m rows = Ok st ->
    exists new, st_rows st = rows ++ new /\
                runs r e x N s b m new (st_balance st) (st_m st).
Proof.
  induction fuel as [|fuel IH]; intros b m rows st H; [discriminate|].
  rewrite schedule_loop_unfold in H.
  destruct (Qlt_bool 0 b && (m <? N + 600)%Z) eqn:C.
  - apply loop_condition in C. destruct C as [Hb Hm].
    destruct (add_months s m) as [d| |] eqn:D; try discriminate.
    cbv zeta in H.
    destruct (Qle_bool _ (1 # 100)) eqn:B.
    + apply Qle_bool_iff in B. injection H as <-. simpl.
      eexists; split; [reflexivity|]. now apply runs_break.
    + apply Qle_bool_false_iff in B. apply IH in H.
      destruct H as (new & Hrows & Hruns).
      exists (period r e x (m + 1) d b :: new). split.
      * rewrite Hrows, <- app_assoc. reflexivity.
      * now apply runs_step with (d := d).
  - apply loop_condition_false in C. injection H as <-. simpl.
    exists []. split; [now rewrite app_nil_r | now apply runs_exit].
Qed.

(** The counter advances by one per row and stays within the cap. *)
Lemma runs_counter (b : Q) (m : Z) (new : list Row) (bf : Q) (mf : Z) :
  runs r e x N s b m new bf mf -> mf = (m + Z.of_nat (length new))%Z.
Proof.
  induction 1; simpl length; try lia.
Qed.

Lemma runs_cap (b : Q) (m : Z) (new : list Row) (bf : Q) (mf : Z) :
  runs r e x N s b m new bf mf -> (mf <= Z.max m (N + 600))%Z.
Proof.
  induction 1; lia.
Qed.

(** The loop never runs out of fuel when given more than the number of
    iterations the cap leaves. *)
Lemma loop_fuel (fuel : nat) :
  forall (b : Q) (m : Z) (rows : list Row),
    (Z.to_nat (N + 600 - m) < fuel)%nat ->
    schedule_loop fuel r e x N s b m rows <> OutOfFuel.
Proof.
  induction fuel as [|fuel IH]; intros b m rows Hf; [lia|].
  rewrite schedule_loop_unfold.
  destruct (Qlt_bool 0 b && (m <? N + 600)%Z) eqn:C; [|discriminate].
  apply loop_condition in C. destruct C as [Hb Hm].
  unfold add_months.
  destruct (_ >? MAXYEAR)%Z; [discriminate|]. cbv zeta.
  destruct (Qle_bool _ (1 # 100)); [discriminate|].
  apply IH. lia.
Qed.

End Loop.

(** ** Dates *)

Lemma add_months_ok (s : date) (N k : Z) :
  (year s + N / 12 < MAXYEAR)%Z -> (0 <= k <= N)%Z ->
  exists d, add_months s k = Ok d.
Proof.
  intros Hy Hk. unfold add_months.
  assert (k / 12 <= N / 12)%Z by (apply Z.div_le_mono; lia).
  destruct (_ >? MAXYEAR)%Z eqn:E; [|eexists; reflexivity].
  exfalso. apply Z.gtb_lt in E.
  destruct (year s + k / 12 >? 12)%Z; destruct (month s + k mod 12 >? 12)%Z; lia.
Qed.

(** ** The zero-snap *)

Lemma snap_last_app (rows : list Row) (row : Row) :
  snap_last (rows ++ [row]) = rows ++ [set_closing_balance row 0].
Proof.
  induction rows as [|a rows IH]; [reflexivity|].
  simpl app. simpl snap_last. rewrite IH.
  destruct rows; reflexivity.
Qed.

Lemma snap_last_length (rows : list Row) :
  length (snap_last rows) = length rows.
Proof.
  destruct rows as [|row rows _] using rev_ind; [reflexivity|].
  rewrite snap_last_app, !length_app. reflexivity.
Qed.

Lemma total_principal_app (l1 l2 : list Row) :
  total_principal (l1 ++ l2) == total_principal l1 + total_principal l2.
Proof.
  induction l1 as [|a l1 IH]; simpl; [ring|]. rewrite IH. ring.
Qed.

Lemma total_principal_snap (rows : list Row) :
  total_principal (snap_last rows) == total_principal rows.
Proof.
  destruct rows as [|row rows _] using rev_ind; [reflexivity|].
  rewrite snap_last_app, !total_principal_app. reflexivity.
Qed.

(** ** What every run of the loop guarantees *)

Section Runs.

Variables (r e x : Q) (N : Z) (s : date).



(** The principal repaid is the fall of the balance. *)
Lemma runs_total_principal (b : Q) (m : Z) (new : list Row) (bf : Q) (mf : Z) :
  runs r e x N s b m new bf mf -> total_principal new == b - bf.
Proof.
  intros H. runs_induction H; cbn [total_principal fold_right].
  - ring.
  - rewrite period_closing, period_opening. ring.
  - fold (total_principal rest). rewrite IH, period_closing, period_opening.
    ring.
Qed.

Lemma runs_final_balance (b : Q) (m : Z) (new : list Row) (bf : Q) (mf : Z) :
  runs r e x N s b m new bf mf -> 0 <= b -> 0 <= bf /\ bf <= b.
Proof.
  intros H. runs_induction H; intros H0.
  - split; lra.
  - destruct (period_principal_bounds r e x (m + 1) d b Hb).
    rewrite period_closing, period_opening. split; lra.
  - destruct (period_principal_bounds r e x (m + 1) d b Hb).
    rewrite period_closing, period_opening in IH, Hc.
    destruct IH; [lra|]. split; lra.
Qed.

End Runs.

(** ** From the loop to the schedule *)

Lemma run_loop_runs (P a : Q) (N : Z) (s : date) (x : Q) (st : loop_state) :
  run_loop P a N s x = Ok st ->
  exists e, compute_emi P a N = Ok e /\
            runs (monthly_rate a) e x N s P 0 (st_rows st) (st_balance st) (st_m st).
Proof.
  unfold run_loop. destruct (compute_emi P a N) as [e| |]; try discriminate.
  unfold bind. intros H. apply loop_runs in H. destruct H as (new & -> & H).
  exists e. split; [reflexivity | exact H].
Qed.

Lemma schedule_run_loop (P a : Q) (N : Z) (s : date) (x : Q) (rows : list Row) :
  amortization_schedule P a N s x = Ok rows <->
  exists st, run_loop P a N s x = Ok st /\ rows = snap_last (st_rows st).
Proof.
  unfold amortization_schedule.
  destruct (run_loop P a N s x) as [st| |]; simpl; split.
  - intros [= <-]. now exists st.
  - intros (st' & [= <-] & ->). reflexivity.
  - discriminate.
  - intros (? & ? & _). discriminate.
  - discriminate.
  - intros (? & ? & _). discriminate.
Qed.

Lemma run_loop_fuel (P a : Q) (N : Z) (s : date) (x : Q) :
  run_loop P a N s x <> OutOfFuel.
Proof.
  unfold run_loop, compute_emi, float_div.
  destruct (N <=? 0)%Z; [|destruct (Qeq_bool _ 0); destruct (Qeq_bool _ 0)];
    unfold bind; try discriminate; apply loop_fuel; lia.
Qed.

(** C6.  [amortization_schedule] terminates on every input: the loop never
    needs more evaluations of its condition than the cap allows (it does not
    run out of fuel), and a returned schedule has at most [months + 600]
    rows (none when [months + 600 <= 0]), whatever the rate and the extra
    payment. *)
Theorem schedule_terminates_within_cap (P a : Q) (N : Z) (s : date) (x : Q) :
  match amortization_schedule P a N s x with
  | Ok rows => (length rows <= Z.to_nat (N + 600))%nat
  | Raise _ => True
  | OutOfFuel => False
  end.
Proof.
  destruct (amortization_schedule P a N s x) as [rows|ex|] eqn:H.
  - apply schedule_run_loop in H. destruct H as (st & H & ->).
    apply run_loop_runs in H. destruct H as (e & _ & H).
    rewrite snap_last_length.
    pose proof (runs_counter _ _ _ _ _ _ _ _ _ _ H).
    pose proof (runs_cap _ _ _ _ _ _ _ _ _ _ H). lia.
  - exact I.
  - unfold amortization_schedule in H.
    pose proof (run_loop_fuel P a N s x).
    destruct (run_loop P a N s x); simpl in H; congruence.
Qed.

(** ** Rows of a returned schedule *)


(** C9, amended.  Whenever the loop ran at least once ([months + 600 > 0])
    and stopped because the counter reached the cap [months + 600] while
    the balance was still above 0.01, the returned schedule is not empty and
    its last row's closing balance is exactly 0. *)
Theorem capped_schedule_is_snapped (P a : Q) (N : Z) (s : date) (x : Q)
    (st : loop_state) :
  run_loop P a N s x = Ok st ->
  (N + 600 <= st_m st)%Z -> 1 # 100 < st_balance st ->
  (0 < N + 600)%Z ->
  exists front final,
    amortization_schedule P a N s x = Ok (front ++ [final]) /\
    closing_balance final = 0.
Proof.
  intros H Hcap Hbal Hpos.
  assert (Hs : amortization_schedule P a N s x = Ok (snap_last (st_rows st)))
    by (apply schedule_run_loop; now exists st).
  apply run_loop_runs in H. destruct H as (e & _ & H).
  apply runs_counter in H.
  destruct (st_rows st) as [|row new _] using rev_ind.
  - simpl in H. lia.
  - rewrite snap_last_app in Hs.
    exists new, (set_closing_balance row 0). split; [exact Hs | reflexivity].
Qed.

(** ** Convergence for well-formed loan terms *)

Lemma annuity_rate_le_1 (r : Q) (j : nat) :
  0 <= r -> r * annuity (1 + r) j <= 1.
Proof.
  intros Hr. induction j as [|j IH]; [simpl; lra|].
  pose proof (annuity_step (1 + r) j ltac:(lra)) as Hs.
  pose proof (annuity_nonneg (1 + r) (S j) ltac:(lra)).
  set (A' := annuity (1 + r) (S j)) in *. set (A := annuity (1 + r) j) in *.
  nra.
Qed.

(** Paying at least the EMI keeps the balance under the value of the
    payments still due. *)
Lemma period_closing_annuity (r e x : Q) (m : Z) (d : date) (b : Q) (j : nat) :
  0 <= r -> 0 <= e -> 0 <= x ->
  b <= e * annuity (1 + r) (S j) ->
  closing_balance (period r e x m d b) <= e * annuity (1 + r) j.
Proof.
  intros Hr He Hx Hb. rewrite period_closing_formula.
  pose proof (annuity_step (1 + r) j ltac:(lra)) as Hs.
  pose proof (annuity_nonneg (1 + r) j ltac:(lra)).
  set (A' := annuity (1 + r) (S j)) in *. set (A := annuity (1 + r) j) in *.
  assert (b * (1 + r) <= e * A' * (1 + r)) by nra.
  assert (e * A' * (1 + r) == e + e * A) by nra.
  assert (0 <= e * A) by nra.
  minmax_cases; lra.
Qed.

Lemma runs_converges (r e x : Q) (N : Z) (s : date)
    (b : Q) (m : Z) (new : list Row) (bf : Q) (mf : Z) :
  runs r e x N s b m new bf mf ->
  0 <= r -> 0 <= e -> 0 <= x ->
  forall j : nat, (m + Z.of_nat j = N)%Z ->
    b <= e * annuity (1 + r) j -> bf <= 1 # 100.
Proof.
  intros H Hr He Hx.
  runs_induction H; intros j Hj Hbj.
  - destruct Hexit as [Hexit|Hexit]; [lra | lia].
  - exact Hc.
  - destruct j as [|j]; [simpl in Hbj; lra|].
    apply (IH j); [lia|]. now apply period_closing_annuity.
Qed.

(** In exact arithmetic, for loan terms as the data model has them
    (principal, rate and extra payment non-negative, a positive number of
    months), the sum of the "Principal" column of the returned schedule is
    within 0.01 of the principal.  On floats the sum can be further off
    ([b64_principal_sum_off_by_one]). *)
Theorem principal_is_conserved (P a : Q) (N : Z) (s : date) (x : Q)
    (rows : list Row) :
  0 <= P -> 0 <= a -> (0 < N)%Z -> 0 <= x ->
  amortization_schedule P a N s x = Ok rows ->
  Qabs (total_principal rows - P) <= 1 # 100.
Proof.
  intros HP Ha HN Hx H.
  apply schedule_run_loop in H. destruct H as (st & H & ->).
  apply run_loop_runs in H. destruct H as (e & He & H).
  destruct (compute_emi_annuity P a N Ha HN) as (e' & He' & HA).
  rewrite He in He'. injection He' as <-.
  pose proof (monthly_rate_nonneg a Ha) as Hr.
  assert (HApos : 0 < annuity (1 + monthly_rate a) (Z.to_nat N)).
  { destruct (Z.to_nat N) eqn:E; [lia|]. apply annuity_pos. lra. }
  assert (He0 : 0 <= e) by nra.
  pose proof (runs_total_principal _ _ _ _ _ _ _ _ _ _ H) as Hsum.
  pose proof (runs_final_balance _ _ _ _ _ _ _ _ _ _ H HP) as [Hb0 _].
  pose proof (runs_converges _ _ _ _ _ _ _ _ _ _ H Hr He0 Hx (Z.to_nat N)
                ltac:(lia) ltac:(lra)) as Hconv.
  rewrite total_principal_snap, Hsum.
  apply Qabs_Qle_condition. split; simpl; lra.
Qed.

(** ** A schedule without extra payment *)

(** With the EMI as the whole payment the balance is the value of the
    payments still due. *)
Lemma period_closing_exact (r e x : Q) (m : Z) (d : date) (b : Q) (j : nat) :
  0 <= r -> 0 <= e -> x == 0 ->
  b == e * annuity (1 + r) (S j) ->
  closing_balance (period r e x m d b) == e * annuity (1 + r) j.
Proof.
  intros Hr He Hx Hb. rewrite period_closing_formula.
  pose proof (annuity_step (1 + r) j ltac:(lra)) as Hs.
  pose proof (annuity_nonneg (1 + r) j ltac:(lra)).
  pose proof (annuity_rate_le_1 r (S j) Hr).
  set (A' := annuity (1 + r) (S j)) in *. set (A := annuity (1 + r) j) in *.
  assert (b * (1 + r) == e + e * A) by nra.
  assert (0 <= e * A) by nra.
  assert (e * (r * A') <= e) by nra.
  minmax_cases; nra.
Qed.

Lemma loop_full_term (r e x : Q) (N : Z) (s : date) :
  0 <= r -> 0 < e -> x == 0 -> (1 # 100) * (1 + r) < e ->
  (year s + N / 12 < MAXYEAR)%Z ->
  forall (j fuel : nat) (b : Q) (m : Z) (rows : list Row),
    (0 <= m)%Z -> (m + Z.of_nat (S j) = N)%Z -> (S j < fuel)%nat ->
    b == e * annuity (1 + r) (S j) ->
    exists st new,
      schedule_loop fuel r e x N s b m rows = Ok st /\
      st_rows st = rows ++ new /\ length new = S j.
Proof.
  intros Hr He Hx Hmin Hy.
  assert (Hentry : forall (j : nat) (b : Q) (m : Z),
            (0 <= m)%Z -> (m + Z.of_nat (S j) = N)%Z ->
            b == e * annuity (1 + r) (S j) ->
            Qlt_bool 0 b && (m <? N + 600)%Z = true /\
            exists d, add_months s m = Ok d).
  { intros j b m Hm HN Hb. split.
    - apply loop_condition. split; [|lia].
      pose proof (annuity_pos (1 + r) j ltac:(lra)). nra.
    - apply (add_months_ok s N m Hy). lia. }
  induction j as [|j IH]; intros fuel b m rows Hm HN Hfuel Hb;
    (destruct fuel as [|fuel]; [lia|]);
    rewrite schedule_loop_unfold;
    destruct (Hentry _ b m Hm HN Hb) as [-> [d ->]]; cbv zeta;
    pose proof (period_closing_exact r e x (m + 1) d b _ Hr
                  ltac:(lra) Hx Hb) as Hclose.
  - simpl annuity in Hclose.
    assert (B : Qle_bool (closing_balance (period r e x (m + 1) d b))
                         (1 # 100) = true) by (apply Qle_bool_iff; lra).
    rewrite B. do 2 eexists. split; [reflexivity|]. split; reflexivity.
  - pose proof (annuity_step (1 + r) j ltac:(lra)) as Hs.
    pose proof (annuity_nonneg (1 + r) j ltac:(lra)).
    assert (B : Qle_bool (closing_balance (period r e x (m + 1) d b))
                         (1 # 100) = false).
    { apply Qle_bool_false_iff. rewrite Hclose.
      set (A := annuity (1 + r) (S j)) in *. nra. }
    rewrite B.
    destruct (IH fuel (closing_balance (period r e x (m + 1) d b)) (m + 1)%Z
                (rows ++ [period r e x (m + 1) d b])
                ltac:(lia) ltac:(lia) ltac:(lia) Hclose)
      as (st & new & Hst & Hrows & Hlen).
    exists st, (period r e x (m + 1) d b :: new).
    split; [exact Hst|]. split.
    + rewrite Hrows, <- app_assoc. reflexivity.
    + simpl. now rewrite Hlen.
Qed.

(** In exact arithmetic, for a positive principal, a non-negative rate,
    [N > 0] months and no extra payment, when the EMI exceeds
    [0.01 * (1 + r)] (the balance before the last payment is above 0.01) and
    the dates stay within [MAXYEAR], the schedule is returned, has exactly
    [N] rows, and its last row's closing balance is exactly 0.  On floats
    the number of rows can be smaller or larger ([b64_term_not_met]). *)
Theorem schedule_has_full_term (P a : Q) (N : Z) (s : date) (e : Q) :
  0 < P -> 0 <= a -> (0 < N)%Z ->
  compute_emi P a N = Ok e ->
  (1 # 100) * (1 + monthly_rate a) < e ->
  (year s + N / 12 < MAXYEAR)%Z ->
  exists front final,
    amortization_schedule P a N s 0 = Ok (front ++ [final]) /\
    length (front ++ [final]) = Z.to_nat N /\
    closing_balance final = 0.
Proof.
  intros HP Ha HN He Hmin Hy.
  destruct (compute_emi_annuity P a N Ha HN) as (e' & He' & HA).
  rewrite He in He'. injection He' as <-.
  pose proof (monthly_rate_nonneg a Ha) as Hr.
  destruct (Z.to_nat N) as [|j] eqn:Ej; [lia|].
  pose proof (annuity_pos (1 + monthly_rate a) j ltac:(lra)) as HApos.
  assert (He0 : 0 < e) by nra.
  destruct (loop_full_term (monthly_rate a) e 0 N s Hr He0 ltac:(reflexivity)
              Hmin Hy j (S (Z.to_nat (N + 600))) P 0%Z []
              ltac:(lia) ltac:(lia) ltac:(lia) ltac:(symmetry; exact HA))
    as (st & new & Hst & Hrows & Hlen).
  simpl app in Hrows.
  assert (Hs : amortization_schedule P a N s 0 = Ok (snap_last new)).
  { unfold amortization_schedule, run_loop. rewrite He. unfold bind.
    fold (monthly_rate a). rewrite Hst, Hrows. reflexivity. }
  destruct new as [|row new _] using rev_ind; [discriminate|].
  rewrite snap_last_app in Hs.
  exists new, (set_closing_balance row 0).
  split; [exact Hs|]. split; [|reflexivity].
  rewrite length_app in *. simpl in *. lia.
Qed.

(** ** Extra payments *)

Lemma loop_compare (r e x x' : Q) (N : Z) (s : date) :
  0 <= 1 + r -> x <= x' ->
  forall (fuel : nat) (b b' : Q) (m : Z) (rows rows' : list Row)
         (st : loop_state),
    b' <= b ->
    schedule_loop fuel r e x N s b m rows = Ok st ->
    exists st',
      schedule_loop fuel r e x' N s b' m rows' = Ok st' /\
      (st_m st' <= st_m st)%Z.
Proof.
  intros Hr Hx.
  induction fuel as [|fuel IH]; intros b b' m rows rows' st Hb H;
    [discriminate|].
  assert (Hge : (m <= st_m st)%Z).
  { apply loop_runs in H. destruct H as (new & _ & H).
    apply runs_counter in H. lia. }
  rewrite schedule_loop_unfold in H. rewrite schedule_loop_unfold.
  destruct (Qlt_bool 0 b' && (m <? N + 600)%Z) eqn:C';
    [|eexists; split; [reflexivity | exact Hge]].
  apply loop_condition in C'. destruct C' as [Hb' Hm].
  assert (C : Qlt_bool 0 b && (m <? N + 600)%Z = true)
    by (apply loop_condition; split; [lra | exact Hm]).
  rewrite C in H.
  destruct (add_months s m) as [d| |]; try discriminate. cbv zeta in *.
  pose proof (period_closing_monotone r e x x' (m + 1) (m + 1) d d b b'
                Hr Hb Hx) as Hmono.
  destruct (Qle_bool (closing_balance (period r e x' (m + 1) d b')) (1 # 100))
    eqn:B'.
  - eexists; split; [reflexivity|]. simpl.
    destruct (Qle_bool (closing_balance (period r e x (m + 1) d b)) (1 # 100)).
    + injection H as <-. simpl. lia.
    + apply loop_runs in H. destruct H as (new & _ & H).
      apply runs_counter in H. lia.
  - apply Qle_bool_false_iff in B'.
    assert (B : Qle_bool (closing_balance (period r e x (m + 1) d b))
                         (1 # 100) = false)
      by (apply Qle_bool_false_iff; lra).
    rewrite B in H. eapply IH; [exact Hmono | exact H].
Qed.

(** C8.  An extra payment never lengthens a schedule: for every principal and
    number of months and every annual rate from -1200 up (so every
    non-negative rate), if the schedule with no extra payment is returned
    then the schedule with an extra payment [x > 0] is returned too and has
    no more rows. *)
Theorem extra_payment_never_lengthens (P a : Q) (N : Z) (s : date) (x : Q)
    (rows0 : list Row) :
  -1200 <= a -> 0 < x ->
  amortization_schedule P a N s 0 = Ok rows0 ->
  exists rows1,
    amortization_schedule P a N s x = Ok rows1 /\
    (length rows1 <= length rows0)%nat.
Proof.
  intros Ha Hx H.
  apply schedule_run_loop in H. destruct H as (st & H & ->).
  pose proof (run_loop_runs _ _ _ _ _ _ H) as (e & He & Hruns).
  unfold run_loop in H. rewrite He in H. unfold bind in H.
  assert (Hr : 0 <= 1 + a / 12 / 100).
  { fold (monthly_rate a). rewrite monthly_rate_eq.
    setoid_replace (1 + a / 1200) with ((1200 + a) / 1200) by field.
    apply Qle_shift_div_l; lra. }
  destruct (loop_compare _ e 0 x N s Hr ltac:(lra) _ P P 0%Z [] [] st
              ltac:(lra) H) as (st' & H' & Hm).
  exists (snap_last (st_rows st')). split.
  - unfold amortization_schedule, run_loop. rewrite He. unfold bind.
    rewrite H'. reflexivity.
  - apply loop_runs in H'. destruct H' as (new' & Hrows' & H').
    apply runs_counter in H'. apply runs_counter in Hruns.
    rewrite !snap_last_length, Hrows'. simpl. lia.
Qed.

(** ** A non-positive number of months *)

(** With no payment at all the balance never falls, and the loop runs to
    the cap. *)
Lemma loop_no_payment (r : Q) (N : Z) (s : date) :
  0 <= r -> (year s + (N + 600) / 12 < MAXYEAR)%Z ->
  forall (k fuel : nat) (b : Q) (m : Z) (rows : list Row),
    1 # 100 < b -> (0 <= m)%Z -> (m + Z.of_nat k = N + 600)%Z ->
    (k < fuel)%nat ->
    exists st new,
      schedule_loop fuel r 0 0 N s b m rows = Ok st /\
      st_rows st = rows ++ new /\ length new = k.
Proof.
  intros Hr Hy.
  induction k as [|k IH]; intros fuel b m rows Hb Hm Hk Hfuel;
    (destruct fuel as [|fuel]; [lia|]); rewrite schedule_loop_unfold.
  - assert (C : Qlt_bool 0 b && (m <? N + 600)%Z = false)
      by (apply loop_condition_false; right; lia).
    rewrite C. exists (mkState b m rows), []. simpl.
    now rewrite app_nil_r.
  - assert (C : Qlt_bool 0 b && (m <? N + 600)%Z = true)
      by (apply loop_condition; split; [lra | lia]).
    rewrite C.
    destruct (add_months_ok s (N + 600) m Hy ltac:(lia)) as [d ->]. cbv zeta.
    assert (Hclose : 1 # 100 < closing_balance (period r 0 0 (m + 1) d b)).
    { rewrite period_closing_formula.
      assert (b <= b * (1 + r)) by nra. minmax_cases; lra. }
    apply Qle_bool_false_iff in Hclose. rewrite Hclose.
    apply Qle_bool_false_iff in Hclose.
    destruct (IH fuel _ (m + 1)%Z (rows ++ [period r 0 0 (m + 1) d b])
                Hclose ltac:(lia) ltac:(lia) ltac:(lia))
      as (st & new & Hst & Hrows & Hlen).
    exists st, (period r 0 0 (m + 1) d b :: new).
    split; [exact Hst|]. split.
    + rewrite Hrows, <- app_assoc. reflexivity.
    + simpl. now rewrite Hlen.
Qed.

(** For [-600 < months <= 0] the EMI is 0, nothing is ever repaid, and the
    schedule has [months + 600] rows. *)
Lemma nonpositive_months_schedule_length (P a : Q) (N : Z) (s : date) :
  1 # 100 < P -> 0 <= a -> (N <= 0)%Z -> (-600 < N)%Z ->
  (year s + (N + 600) / 12 < MAXYEAR)%Z ->
  exists rows,
    amortization_schedule P a N s 0 = Ok rows /\
    length rows = Z.to_nat (N + 600).
Proof.
  intros HP Ha HN HN' Hy.
  destruct (loop_no_payment (monthly_rate a) N s (monthly_rate_nonneg a Ha) Hy
              (Z.to_nat (N + 600)) (S (Z.to_nat (N + 600))) P 0%Z []
              HP ltac:(lia) ltac:(lia) ltac:(lia))
    as (st & new & Hst & Hrows & Hlen).
  exists (snap_last new). split.
  - unfold amortization_schedule, run_loop, compute_emi.
    apply Z.leb_le in HN. rewrite HN. unfold bind.
    fold (monthly_rate a). rewrite Hst, Hrows. reflexivity.
  - now rewrite snap_last_length.
Qed.

(** C2.  The claim is that a schedule for [months <= 0] is empty; the code
    has no such guard.  For a principal of 1000 at rate 0 with
    [months = 0] and no extra payment it returns 600 rows. *)
Theorem zero_months_schedule_has_600_rows :
  exists rows, amortization_schedule 1000 0 0 jan2024 0 = Ok rows /\
               length rows = 600%nat.
Proof.
  eexists. split; [vm_compute; reflexivity | reflexivity].
Qed.

(** ** The sensitivity grid *)

Lemma py_int_comp (x y : Q) : x == y -> py_int x = py_int y.
Proof.
  intros H. unfold py_int.
  rewrite (Qleb_comp 0 0 (Qeq_refl 0) x y H).
  destruct (Qle_bool 0 y); [now apply Qfloor_comp | now apply Qceiling_comp].
Qed.

Lemma dict_get_set (d : list (Q * Q)) (key v k : Q) :
  dict_get (dict_set d key v) k
  = if Qeq_bool key k then Some v else dict_get d k.
Proof.
  induction d as [|[k0 w] d IH]; simpl.
  - reflexivity.
  - destruct (Qeq_bool k0 key) eqn:E0; simpl.
    + apply Qeq_bool_iff in E0.
      rewrite (Qeqb_comp k0 key E0 k k (Qeq_refl k)).
      destruct (Qeq_bool key k); reflexivity.
    + rewrite IH. destruct (Qeq_bool k0 k) eqn:E1; [|reflexivity].
      destruct (Qeq_bool key k) eqn:E2; [|reflexivity].
      apply Qeq_bool_iff in E1, E2. apply Qeq_bool_false_iff in E0.
      exfalso. apply E0. now rewrite E1, E2.
Qed.

Lemma grid_cells_spec (P r : Q) (years_list : list Q) :
  forall row0 row : list (Q * Q),
    grid_cells P r years_list row0 = Ok row ->
    cells_ok P r row0 ->
    cells_ok P r row /\
    (forall k, dict_get row0 k <> None -> dict_get row k <> None) /\
    (forall y, In y years_list -> dict_get row y <> None).
Proof.
  induction years_list as [|y ys IH]; intros row0 row H Hok; simpl in H.
  - injection H as <-. repeat split; [exact Hok | auto | intros ? []].
  - destruct (compute_emi P r (py_int (y * 12))) as [v| |] eqn:E;
      try discriminate.
    unfold bind in H. apply IH in H.
    + destruct H as (Hrow & Hkeep & Hnew). split; [exact Hrow|]. split.
      * intros k Hk. apply Hkeep. rewrite dict_get_set.
        destruct (Qeq_bool y k); [discriminate | exact Hk].
      * intros y' [<-|Hin]; [|now apply Hnew].
        apply Hkeep. rewrite dict_get_set, Qeq_bool_refl. discriminate.
    + intros k w. rewrite dict_get_set.
      destruct (Qeq_bool y k) eqn:Ek; [|apply Hok].
      intros [= <-]. apply Qeq_bool_iff in Ek.
      rewrite <- (py_int_comp (y * 12) (k * 12)); [exact E|].
      now rewrite Ek.
Qed.

Lemma grid_rows_spec (P : Q) (years_list rate_list : list Q) :
  forall out grid : list GridRow,
    grid_rows P years_list rate_list out = Ok grid ->
    exists new,
      grid = out ++ new /\
      Forall2 (fun r row =>
                 rate_pct row = r /\
                 grid_cells P r years_list [] = Ok (cells row))
              rate_list new.
Proof.
  induction rate_list as [|r rs IH]; intros out grid H; simpl in H.
  - injection H as <-. exists []. split; [now rewrite app_nil_r | constructor].
  - destruct (grid_cells P r years_list []) as [row| |] eqn:E; try discriminate.
    unfold bind in H. apply IH in H. destruct H as (new & -> & Hnew).
    exists (mkGridRow r row :: new). split.
    + now rewrite <- app_assoc.
    + constructor; [|exact Hnew]. simpl. now split.
Qed.

(** C10.  [sensitivity_table] does not depend on [base_rate]: two calls that
    differ only in it have the same outcome, and a returned grid has one
    row per rate, in order, whose cell for each tenure [y] of [years_list]
    is [compute_emi principal rate (int (y * 12))]. *)
Theorem sensitivity_table_ignores_base_rate (P b1 b2 : Q)
    (years_list rate_list : list Q) :
  sensitivity_table P b1 years_list rate_list
  = sensitivity_table P b2 years_list rate_list /\
  forall grid,
    sensitivity_table P b1 years_list rate_list = Ok grid ->
    Forall2 (fun r row =>
               rate_pct row = r /\
               forall y, In y years_list ->
                 exists v, dict_get (cells row) y = Some v /\
                           compute_emi P r (py_int (y * 12)) = Ok v)
            rate_list grid.
Proof.
  split; [reflexivity|].
  intros grid H. unfold sensitivity_table in H.
  apply grid_rows_spec in H. destruct H as (new & -> & H). simpl.
  eapply Forall2_impl; [|exact H].
  intros r row [Hr Hc]. split; [exact Hr|].
  intros y Hy. apply grid_cells_spec in Hc; [|intros ? ? [=]].
  destruct Hc as (Hok & _ & Hin).
  destruct (dict_get (cells row) y) as [v|] eqn:E.
  - exists v. split; [reflexivity | now apply Hok].
  - now apply Hin in Hy.
Qed.

(** ** The statements on concrete inputs *)



Lemma extra_payment_never_lengthens_witness :
  -1200 <= 0 /\ 0 < 200 /\
  exists rows0 rows1,
    amortization_schedule 1200 0 3 jan2024 0 = Ok rows0 /\
    amortization_schedule 1200 0 3 jan2024 200 = Ok rows1 /\
    (length rows1 <= length rows0)%nat.
Proof.
  split; [discriminate|]. split; [reflexivity|].
  eexists.
  assert (H : amortization_schedule 1200 0 3 jan2024 0 = Ok _)
    by (vm_compute; reflexivity).
  destruct (extra_payment_never_lengthens 1200 0 3 jan2024 200 _
              ltac:(discriminate) ltac:(reflexivity) H) as (rows1 & H1 & Hlen).
  exists rows1. split; [exact H|]. split; assumption.
Defined.

(** C9: with [months = -600] the cap is 0, the loop stops at once on the
    counter with the whole principal outstanding, and the returned schedule
    is empty. *)
Lemma cap_zero_schedule_is_empty :
  run_loop 1000 0 (-600) jan2024 0 = Ok (mkState 1000 0 []) /\
  (-600 + 600 <= st_m (mkState 1000 0 []))%Z /\
  1 # 100 < st_balance (mkState 1000 0 []) /\
  amortization_schedule 1000 0 (-600) jan2024 0 = Ok [].
Proof.
  split; [reflexivity|]. split; [simpl; lia|].
  split; reflexivity.
Qed.

Lemma capped_schedule_is_snapped_witness :
  exists st,
    run_loop 1000 0 1 jan2024 (-1000) = Ok st /\
    (1 + 600 <= st_m st)%Z /\ 1 # 100 < st_balance st /\
    exists front final,
      amortization_schedule 1000 0 1 jan2024 (-1000) = Ok (front ++ [final]) /\
      closing_balance final = 0.
Proof.
  eexists. split; [vm_compute; reflexivity|].
  split; [simpl; lia|]. split; [reflexivity|].
  eapply (capped_schedule_is_snapped 1000 0 1 jan2024 (-1000)).
  - vm_compute; reflexivity.
  - simpl. lia.
  - reflexivity.
  - lia.
Defined.

(** * Further properties of the code *)

(** ** The layout of a returned schedule *)

Lemma snap_last_nth_front (rows : list Row) (k : nat) :
  (S k < length rows)%nat ->
  nth_error (snap_last rows) k = nth_error rows k.
Proof.
  destruct rows as [|row rows _] using rev_ind; [simpl; lia|].
  rewrite snap_last_app, length_app. simpl. intros Hk.
  rewrite !nth_error_app1 by lia. reflexivity.
Qed.

Lemma snap_last_nth (rows : list Row) (k : nat) (row : Row) :
  nth_error (snap_last rows) k = Some row ->
  exists row0, nth_error rows k = Some row0 /\
               (row = row0 \/ row = set_closing_balance row0 0).
Proof.
  destruct rows as [|final rows _] using rev_ind.
  - destruct k; discriminate.
  - rewrite snap_last_app. intros H.
    destruct (Nat.lt_ge_cases k (length rows)) as [Hk|Hk].
    + rewrite nth_error_app1 in H by exact Hk.
      exists row. rewrite nth_error_app1 by exact Hk. auto.
    + rewrite nth_error_app2 in H by exact Hk.
      rewrite nth_error_app2 by exact Hk.
      destruct (k - length rows)%nat as [|k'].
      * injection H as <-. exists final. auto.
      * destruct k'; discriminate.
Qed.

Section Layout.

Variables (r e x : Q) (N : Z) (s : date).

Lemma runs_numbering (b : Q) (m : Z) (new : list Row) (bf : Q) (mf : Z) :
  runs r e x N s b m new bf mf ->
  forall (k : nat) (row : Row),
    nth_error new k = Some row ->
    installment row = (m + 1 + Z.of_nat k)%Z /\
    add_months s (m + Z.of_nat k) = Ok (row_date row).
Proof.
  intros H. runs_induction H; intros k row Hk.
  - destruct k; discriminate.
  - destruct k as [|k]; [|destruct k; discriminate].
    injection Hk as <-. simpl Z.of_nat. rewrite !Z.add_0_r.
    unfold period. destruct (Qeq_bool r 0); simpl; now split.
  - destruct k as [|k].
    + injection Hk as <-. simpl Z.of_nat. rewrite !Z.add_0_r.
      unfold period. destruct (Qeq_bool r 0); simpl; now split.
    + simpl in Hk. apply IH in Hk. destruct Hk as [Hi Hd'].
      rewrite Nat2Z.inj_succ.
      replace (m + 1 + Z.succ (Z.of_nat k))%Z
        with (m + 1 + 1 + Z.of_nat k)%Z by lia.
      replace (m + Z.succ (Z.of_nat k))%Z with (m + 1 + Z.of_nat k)%Z by lia.
      now split.
Qed.

Lemma runs_first (b : Q) (m : Z) (new : list Row) (bf : Q) (mf : Z) (row : Row) :
  runs r e x N s b m new bf mf ->
  nth_error new 0 = Some row -> opening_balance row = b.
Proof.
  intros H. runs_induction H; simpl; intros Hk; try discriminate;
    injection Hk as <-; apply period_opening.
Qed.

Lemma runs_chain (b : Q) (m : Z) (new : list Row) (bf : Q) (mf : Z) :
  runs r e x N s b m new bf mf ->
  forall (k : nat) (row next : Row),
    nth_error new k = Some row -> nth_error new (S k) = Some next ->
    opening_balance next = closing_balance row /\
    1 # 100 < closing_balance row.
Proof.
  intros H. runs_induction H; intros k row next Hk Hn.
  - destruct k; discriminate.
  - destruct k; discriminate.
  - destruct k as [|k].
    + injection Hk as <-. simpl in Hn. split; [|exact Hc].
      eapply runs_first; eassumption.
    + simpl in Hk, Hn. eapply IH; eassumption.
Qed.


End Layout.

(** ** Numbering, chaining and emptiness *)

(** A returned schedule is the snapped rows of a run from the principal. *)
Lemma schedule_runs (P a : Q) (N : Z) (s : date) (x : Q) (rows : list Row) :
  amortization_schedule P a N s x = Ok rows ->
  exists e new bf mf,
    compute_emi P a N = Ok e /\
    runs (monthly_rate a) e x N s P 0 new bf mf /\
    rows = snap_last new.
Proof.
  intros H. apply schedule_run_loop in H. destruct H as (st & H & ->).
  apply run_loop_runs in H. destruct H as (e & He & H).
  now exists e, (st_rows st), (st_balance st), (st_m st).
Qed.

(** X4.  In a returned schedule the row at position [k] (from 0) has
    instalment number [k + 1] and the date [start] plus [k] months. *)
Theorem schedule_numbering (P a : Q) (N : Z) (s : date) (x : Q)
    (rows : list Row) (k : nat) (row : Row) :
  amortization_schedule P a N s x = Ok rows ->
  nth_error rows k = Some row ->
  installment row = (Z.of_nat k + 1)%Z /\
  add_months s (Z.of_nat k) = Ok (row_date row).
Proof.
  intros H Hk. apply schedule_runs in H.
  destruct H as (e & new & bf & mf & _ & H & ->).
  apply snap_last_nth in Hk. destruct Hk as (row0 & Hk & Hrow).
  destruct (runs_numbering _ _ _ _ _ _ _ _ _ _ H k row0 Hk) as [Hi Hd].
  rewrite Z.add_0_l in Hd.
  destruct Hrow as [->| ->]; simpl; split; solve [lia | exact Hd].
Qed.

(** X5.  In a returned schedule the first row opens at the principal, and
    every later row opens at the closing balance of the row before it,
    which is above 0.01 (the loop would have stopped otherwise). *)
Theorem schedule_balances_chain (P a : Q) (N : Z) (s : date) (x : Q)
    (rows : list Row) :
  amortization_schedule P a N s x = Ok rows ->
  (forall first, nth_error rows 0 = Some first ->
                 opening_balance first = P) /\
  (forall k row next,
      nth_error rows k = Some row -> nth_error rows (S k) = Some next ->
      opening_balance next = closing_balance row /\
      1 # 100 < closing_balance row).
Proof.
  intros H. apply schedule_runs in H.
  destruct H as (e & new & bf & mf & _ & H & ->). split.
  - intros first Hk. apply snap_last_nth in Hk.
    destruct Hk as (row0 & Hk & Hrow).
    pose proof (runs_first _ _ _ _ _ _ _ _ _ _ _ H Hk) as Ho.
    destruct Hrow as [->| ->]; exact Ho.
  - intros k row next Hk Hn.
    assert (Hlen : (S k < length new)%nat).
    { rewrite <- (snap_last_length new). apply nth_error_Some. congruence. }
    rewrite snap_last_nth_front in Hk by exact Hlen.
    apply snap_last_nth in Hn. destruct Hn as (next0 & Hn & Hnext).
    destruct (runs_chain _ _ _ _ _ _ _ _ _ _ H k row next0 Hk Hn) as [Ho Hc].
    split; [|exact Hc]. destruct Hnext as [->| ->]; exact Ho.
Qed.


(** ** The EMI of well-formed loan terms *)

(** What the EMI and the annuity factor give for well-formed terms. *)
Lemma emi_facts (P a : Q) (N : Z) (e : Q) :
  0 <= P -> 0 <= a -> (0 < N)%Z -> compute_emi P a N = Ok e ->
  0 <= monthly_rate a /\ 0 <= e /\
  P == e * annuity (1 + monthly_rate a) (Z.to_nat N).
Proof.
  intros HP Ha HN He.
  destruct (compute_emi_annuity P a N Ha HN) as (e' & He' & HA).
  rewrite He in He'. injection He' as <-.
  pose proof (monthly_rate_nonneg a Ha) as Hr.
  assert (HApos : 0 < annuity (1 + monthly_rate a) (Z.to_nat N)).
  { destruct (Z.to_nat N) eqn:E; [lia|]. apply annuity_pos. lra. }
  split; [exact Hr|]. split; [nra | now symmetry].
Qed.

(** ** Column totals *)

Lemma column_total_fold (col : Row -> Q) (rows : list Row) :
  column_total col rows = fold_right (fun row acc => col row + acc) 0 rows.
Proof. destruct rows; reflexivity. Qed.

Lemma column_total_cons (col : Row -> Q) (row : Row) (rows : list Row) :
  column_total col (row :: rows) = col row + column_total col rows.
Proof. rewrite !column_total_fold. reflexivity. Qed.

Lemma column_total_snap (col : Row -> Q) (rows : list Row) :
  (forall row v, col (set_closing_balance row v) = col row) ->
  column_total col (snap_last rows) = column_total col rows.
Proof.
  intros Hcol. rewrite !column_total_fold.
  destruct rows as [|final rows _] using rev_ind; [reflexivity|].
  rewrite snap_last_app, !fold_right_app. simpl. now rewrite Hcol.
Qed.

Lemma period_interest (r e x : Q) (m : Z) (d : date) (b : Q) :
  interest (period r e x m d b) == b * r.
Proof.
  unfold period. destruct (Qeq_bool r 0) eqn:Er; simpl; [|reflexivity].
  apply Qeq_bool_iff in Er. rewrite Er. ring.
Qed.

(** ** Extra payments and interest *)

Lemma runs_interest_nonneg (r e x : Q) (N : Z) (s : date)
    (b : Q) (m : Z) (new : list Row) (bf : Q) (mf : Z) :
  runs r e x N s b m new bf mf -> 0 <= r ->
  0 <= column_total interest new.
Proof.
  intros H Hr. runs_induction H.
  - simpl. lra.
  - rewrite column_total_cons, period_interest. simpl. nra.
  - rewrite column_total_cons, period_interest. nra.
Qed.

Lemma runs_compare_interest (r e x x' : Q) (N : Z) (s : date)
    (b : Q) (m : Z) (new : list Row) (bf : Q) (mf : Z) :
  runs r e x N s b m new bf mf ->
  0 <= r -> x <= x' ->
  forall (b' : Q) (new' : list Row) (bf' : Q) (mf' : Z),
    runs r e x' N s b' m new' bf' mf' -> b' <= b ->
    column_total interest new' <= column_total interest new.
Proof.
  intros H Hr Hx. runs_induction H; intros b' new' bf' mf' H' Hb'.
  - inversion H'; subst; [apply Qle_refl | |];
      destruct Hexit as [Hexit|Hexit]; solve [lra | lia].
  - assert (Hi : 0 <= b * r) by nra.
    inversion H' as [|b0 m0 d' Hb0 Hm0 Hd0 Hc0|b0 m0 d' rest' bf0 mf0 Hb0 Hm0 Hd0 Hc0 Hrest0];
      subst.
    + rewrite column_total_cons, period_interest. simpl. lra.
    + rewrite !column_total_cons, !period_interest. simpl. nra.
    + exfalso.
      pose proof (period_closing_monotone r e x x' (m + 1) (m + 1) d d' b b'
                    ltac:(lra) Hb' Hx). lra.
  - assert (Hi : 0 <= b * r) by nra.
    pose proof (runs_interest_nonneg _ _ _ _ _ _ _ _ _ _ Hrest Hr) as Hnn.
    inversion H' as [|b0 m0 d' Hb0 Hm0 Hd0 Hc0|b0 m0 d' rest' bf0 mf0 Hb0 Hm0 Hd0 Hc0 Hrest0];
      subst.
    + rewrite column_total_cons, period_interest. simpl. lra.
    + rewrite !column_total_cons, !period_interest. simpl. nra.
    + rewrite !column_total_cons, !period_interest.
      assert (Hrec : column_total interest rest' <= column_total interest rest).
      { eapply IH; [exact Hrest0|].
        apply period_closing_monotone; [lra | exact Hb' | exact Hx]. }
      nra.
Qed.

(** X11.  For a non-negative rate, the "Interest" column of the schedule
    with an extra payment [x >= 0] sums to no more than that of the
    schedule without it. *)
Theorem extra_payment_never_raises_interest (P a : Q) (N : Z) (s : date)
    (x : Q) (rows0 rows1 : list Row) :
  0 <= a -> 0 <= x ->
  amortization_schedule P a N s 0 = Ok rows0 ->
  amortization_schedule P a N s x = Ok rows1 ->
  column_total interest rows1 <= column_total interest rows0.
Proof.
  intros Ha Hx H0 H1.
  apply schedule_runs in H0. destruct H0 as (e & new0 & bf0 & mf0 & He & H0 & ->).
  apply schedule_runs in H1. destruct H1 as (e' & new1 & bf1 & mf1 & He' & H1 & ->).
  rewrite He in He'. injection He' as <-.
  rewrite !column_total_snap by reflexivity.
  eapply runs_compare_interest;
    [exact H0 | now apply monthly_rate_nonneg | exact Hx | exact H1 | lra].
Qed.

(** ** The tenure axis *)

Lemma py_range_nth (start stop step : Z) (k : nat) (y : Z) :
  nth_error (py_range start stop step) k = Some y <->
  (k < Z.to_nat ((stop - start + step - 1) / step))%nat /\
  y = (start + Z.of_nat k * step)%Z.
Proof.
  unfold py_range. rewrite nth_error_map.
  set (n := Z.to_nat ((stop - start + step - 1) / step)).
  destruct (Nat.lt_ge_cases k n) as [Hk|Hk].
  - rewrite nth_error_seq. apply Nat.ltb_lt in Hk as Hk'. rewrite Hk'. simpl.
    split; [intros [= <-]; now split | intros [_ ->]; reflexivity].
  - rewrite nth_error_seq. apply Nat.ltb_ge in Hk as Hk'. rewrite Hk'. simpl.
    split; [discriminate | intros [H _]; lia].
Qed.

Lemma range_step_2_count (start stop : Z) (k : nat) :
  (k < Z.to_nat ((stop - start + 2 - 1) / 2))%nat <->
  (start + Z.of_nat k * 2 < stop)%Z.
Proof.
  pose proof (Z.div_mod (stop - start + 2 - 1) 2 ltac:(lia)) as Hd.
  pose proof (Z.mod_pos_bound (stop - start + 2 - 1) 2 ltac:(lia)) as Hm.
  set (q := ((stop - start + 2 - 1) / 2)%Z) in *.
  set (w := ((stop - start + 2 - 1) mod 2)%Z) in *.
  lia.
Qed.

Lemma tenure_axis_nth (t : Z) (k : nat) (y : Z) :
  nth_error (tenure_axis t) k = Some y <->
  y = (Z.max 1 (t - 10) + 2 * Z.of_nat k)%Z /\ (y < t + 11)%Z.
Proof.
  unfold tenure_axis. rewrite py_range_nth, range_step_2_count. split.
  - intros [Hk ->]. split; lia.
  - intros [-> Hy]. split; lia.
Qed.

(** X19.  For a tenure of at least one year, every tenure of the
    sensitivity tab lies between 1 and [tenure_years + 10], and the chosen
    tenure itself is among them exactly when it is at least 11 or odd. *)
Theorem tenure_axis_contents (t : Z) :
  (1 <= t)%Z ->
  (forall y, In y (tenure_axis t) -> (1 <= y <= t + 10)%Z) /\
  (In t (tenure_axis t) <-> (11 <= t)%Z \/ Z.odd t = true).
Proof.
  intros Ht. split.
  - intros y Hy. apply In_nth_error in Hy. destruct Hy as [k Hk].
    apply tenure_axis_nth in Hk. lia.
  - split.
    + intros Hin. apply In_nth_error in Hin. destruct Hin as [k Hk].
      apply tenure_axis_nth in Hk. destruct Hk as [Hk _].
      destruct (Z.le_gt_cases 11 t) as [H11|H11]; [now left | right].
      apply Z.odd_spec. exists (Z.of_nat k). lia.
    + intros H.
      assert (Hk : exists k : nat, t = (Z.max 1 (t - 10) + 2 * Z.of_nat k)%Z).
      { destruct (Z.le_gt_cases 11 t) as [H11|H11].
        - exists 5%nat. lia.
        - destruct H as [H|H]; [lia|].
          apply Z.odd_spec in H. destruct H as [q Hq].
          exists (Z.to_nat q). lia. }
      destruct Hk as [k Hk].
      apply (nth_error_In _ k). apply tenure_axis_nth. split; [exact Hk | lia].
Qed.

(** ** The calculation *)

(** What the script has computed when it shows results. *)
Lemma calculate_shown (i : Inputs) (res : Results) :
  calculate i = Ok (Shown res) ->
  deposit res = property_value i * inject_Z (deposit_perc i) / 100 /\
  loan_amount res = Qmax (property_value i - deposit res) 0 /\
  0 < loan_amount res /\
  months res = (tenure_years i * 12)%Z /\
  processing_fee res = loan_amount res * processing_fee_rate i / 100 /\
  insurance_fee res = loan_amount res * insurance_rate i / 100 /\
  financed_principal res
  = loan_amount res
    + (if finance_fees i then processing_fee res + insurance_fee res else 0) /\
  compute_emi (financed_principal res) (rate i) (months res) = Ok (emi res) /\
  amortization_schedule (financed_principal res) (rate i) (months res)
                        (start_date i) (extra_monthly i) = Ok (sched res) /\
  total_interest res = column_total interest (sched res) /\
  total_paid res = column_total total_payment (sched res) /\
  payoff_date res = last (map row_date (sched res)) (start_date i) /\
  upfront_cash res
  = deposit res
    + (if finance_fees i then 0 else processing_fee res + insurance_fee res) /\
  total_project_cost res = upfront_cash res + total_paid res /\
  household_income res = income i + co_income i /\
  (if Qeq_bool (household_income res) 0 then Ok 0
   else float_div (emi res + existing_emi i) (household_income res))
  = Ok (affordability_ratio res) /\
  progress_value res = Qmin 1 (affordability_ratio res) /\
  manageable res = Qle_bool (affordability_ratio res) max_safe_ratio.
Proof.
  unfold calculate.
  destruct (Qle_bool _ 0) eqn:Hloan; [discriminate|].
  apply Qle_bool_false_iff in Hloan.
  destruct (compute_emi _ (rate i) _) as [e| |] eqn:He; try discriminate.
  unfold bind at 1.
  destruct (amortization_schedule _ _ _ _ _) as [rows| |] eqn:Hs;
    try discriminate.
  unfold bind at 1.
  destruct (if Qeq_bool (income i + co_income i) 0 then _ else _)
    as [ratio| |] eqn:Hr; try discriminate.
  unfold bind. intros [= <-]. simpl.
  repeat (split; [first [reflexivity | assumption]|]). reflexivity.
Qed.

Lemma calculate_terms (i : Inputs) (res : Results) :
  widget_ranges i -> calculate i = Ok (Shown res) ->
  0 < financed_principal res /\ 0 <= rate i /\ (0 < months res)%Z /\
  0 <= extra_monthly i.
Proof.
  intros Hw H. apply calculate_shown in H.
  destruct H as (_ & _ & Hpos & Hm & Hpf & Hif & Hfp & _).
  destruct Hw as (_ & _ & _ & _ & _ & Hr0 & _ & Hten & Hxm & Hpr & Hir).
  split; [|split; [exact Hr0 | split; [lia | exact Hxm]]].
  assert (0 <= processing_fee res)
    by (rewrite Hpf; apply Qle_shift_div_l; [lra | nra]).
  assert (0 <= insurance_fee res)
    by (rewrite Hif; apply Qle_shift_div_l; [lra | nra]).
  rewrite Hfp. destruct (finance_fees i); lra.
Qed.

(** X17.  With the widgets' ranges, the value handed to [st.progress] lies
    between 0 and 1. *)
Theorem progress_value_in_range (i : Inputs) (res : Results) :
  widget_ranges i -> calculate i = Ok (Shown res) ->
  0 <= progress_value res /\ progress_value res <= 1.
Proof.
  intros Hw H.
  destruct (calculate_terms i res Hw H) as (Hfp & Hr & Hm & Hx).
  apply calculate_shown in H.
  destruct H as (_ & _ & _ & _ & _ & _ & _ & He & _ & _ & _ & _ & _ & _
                 & Hh & Hratio & Hprog & _).
  destruct (emi_facts _ _ _ _ (Qlt_le_weak _ _ Hfp) Hr Hm He) as (_ & He0 & _).
  destruct Hw as (Hinc & Hex & Hco & _).
  assert (Hr0 : 0 <= affordability_ratio res).
  { rewrite Hh in Hratio.
    destruct (Qeq_bool (income i + co_income i) 0) eqn:Hz.
    - injection Hratio as Hq. rewrite <- Hq. apply Qle_refl.
    - unfold float_div in Hratio. rewrite Hz in Hratio.
      injection Hratio as Hq. rewrite <- Hq. apply Qeq_bool_false_iff in Hz.
      apply Qle_shift_div_l; lra. }
  rewrite Hprog. minmax_cases; split; lra.
Qed.

(** ** The further properties on concrete inputs *)

Lemma schedule_numbering_witness :
  exists rows row,
    amortization_schedule 1200 12 3 jan2024 50 = Ok rows /\
    nth_error rows 2 = Some row /\
    installment row = 3%Z /\
    add_months jan2024 2 = Ok (row_date row).
Proof.
  do 2 eexists. split; [vm_compute; reflexivity|].
  split; [reflexivity|].
  eapply (schedule_numbering 1200 12 3 jan2024 50 _ 2);
    [vm_compute; reflexivity | reflexivity].
Defined.

Lemma schedule_balances_chain_witness :
  exists rows,
    amortization_schedule 1200 12 3 jan2024 50 = Ok rows /\
    (forall first, nth_error rows 0 = Some first ->
                   opening_balance first = 1200) /\
    (forall k row next,
        nth_error rows k = Some row -> nth_error rows (S k) = Some next ->
        opening_balance next = closing_balance row /\
        1 # 100 < closing_balance row).
Proof.
  eexists. split; [vm_compute; reflexivity|].
  apply (schedule_balances_chain 1200 12 3 jan2024 50).
  vm_compute; reflexivity.
Defined.


Lemma extra_payment_never_raises_interest_witness :
  exists rows0 rows1,
    amortization_schedule 1200 12 3 jan2024 0 = Ok rows0 /\
    amortization_schedule 1200 12 3 jan2024 50 = Ok rows1 /\
    column_total interest rows1 <= column_total interest rows0.
Proof.
  do 2 eexists. split; [vm_compute; reflexivity|].
  split; [vm_compute; reflexivity|].
  apply (extra_payment_never_raises_interest 1200 12 3 jan2024 50);
    [discriminate | discriminate | vm_compute; reflexivity
    | vm_compute; reflexivity].
Defined.

Lemma sample_inputs_in_range : widget_ranges sample_inputs.
Proof.
  unfold widget_ranges, sample_inputs. simpl.
  repeat split; solve [discriminate | lia].
Defined.

Lemma progress_value_in_range_witness :
  exists res,
    calculate sample_inputs = Ok (Shown res) /\
    0 <= progress_value res /\ progress_value res <= 1.
Proof.
  eexists. split; [vm_compute; reflexivity|].
  apply (progress_value_in_range sample_inputs);
    [exact sample_inputs_in_range | vm_compute; reflexivity].
Defined.

Lemma tenure_axis_contents_witness :
  tenure_axis 4 = [1; 3; 5; 7; 9; 11; 13]%Z /\
  (forall y, In y (tenure_axis 4) -> (1 <= y <= 4 + 10)%Z) /\
  (In 4%Z (tenure_axis 4) <-> (11 <= 4)%Z \/ Z.odd 4 = true).
Proof.
  split; [reflexivity|]. apply (tenure_axis_contents 4). lia.
Defined.

(** * The code on binary64 floats

    The statements below are about [Binary64], the embedding of the code on
    the floats it computes with.  Those that hold for every [pow] make no
    assumption on the C library; the evaluations at concrete inputs use
    [Binary64.pow_cr]. *)

Import PrimFloat.
Local Open Scope float_scope.

(** ** One period and the zero-snap *)






(** ** The loop *)

Section Binary64Loop.

Variables (r e x : float) (N : Z) (s : date).

Lemma b64_schedule_loop_unfold (fuel : nat) (b : float) (m : Z)
    (rows : list Binary64.Row) :
  Binary64.schedule_loop (S fuel) r e x N s b m rows =
  if (0 <? b) && (m <? N + 600)%Z then
    match add_months s m with
    | Ok d =>
        let row := Binary64.period r e x (m + 1) d b in
        if Binary64.closing_balance row <=? Binary64.epsilon
        then Ok (Binary64.mkState (Binary64.closing_balance row) (m + 1)
                                  (rows ++ [row]))
        else Binary64.schedule_loop fuel r e x N s
               (Binary64.closing_balance row) (m + 1) (rows ++ [row])
    | Raise ex => Raise ex
    | OutOfFuel => OutOfFuel
    end
  else Ok (Binary64.mkState b m rows).
Proof.
  simpl. replace (m + 1 - 1)%Z with m by lia.
  destruct ((0 <? b) && (m <? N + 600)%Z); [|reflexivity].
  destruct (add_months s m); reflexivity.
Qed.


(** The loop returns when the dates it builds stay within the calendar. *)
Lemma b64_loop_returns :
  (year s + (N + 600) / 12 < MAXYEAR)%Z ->
  forall (fuel : nat) (b : float) (m : Z) (rows : list Binary64.Row),
    (0 <= m)%Z -> (Z.to_nat (N + 600 - m) < fuel)%nat ->
    exists st, Binary64.schedule_loop fuel r e x N s b m rows = Ok st.
Proof.
  intros Hy. induction fuel as [|fuel IH]; intros b m rows Hm Hf; [lia|].
  rewrite b64_schedule_loop_unfold.
  destruct ((0 <? b) && (m <? N + 600)%Z) eqn:C; [|eexists; reflexivity].
  apply andb_true_iff in C. destruct C as [_ Hcap]. apply Z.ltb_lt in Hcap.
  destruct (add_months_ok s (N + 600) m Hy ltac:(lia)) as [d ->]. cbv zeta.
  destruct (_ <=? Binary64.epsilon); [eexists; reflexivity|].
  apply IH; lia.
Qed.

End Binary64Loop.

(** ** From the loop to the schedule *)



(** ** [compute_emi] *)

(** C1, amended.  [compute_emi] on floats: it returns 0 when [months <= 0];
    for a positive number of months [n] (converted to the float [w]) it
    returns [principal / w] when the monthly rate [r] compares equal to 0;
    otherwise, when [(1 + r) ** n] is the float [p], it returns
    [principal * r * p / (p - 1)], each operation rounded, unless [p - 1]
    is zero, in which case it raises [ZeroDivisionError]; an exception of
    [(1 + r) ** n] ([OverflowError]) is passed on.  In particular every
    rate so small that [1 + r] rounds to 1, yet is not 0, raises
    [ZeroDivisionError] for every principal and every number of months. *)
Theorem b64_compute_emi_cases (pow : float -> float -> float)
    (P a : float) (n : Z) :
  let r := a / 12 / 100 in
  ((n <= 0)%Z -> Binary64.compute_emi pow P a n = Ok 0) /\
  ((0 < n)%Z -> (r =? 0) = true ->
   forall w, Binary64.float_of_int n = Ok w -> (w =? 0) = false ->
     Binary64.compute_emi pow P a n = Ok (P / w)) /\
  ((0 < n)%Z -> (r =? 0) = false ->
   forall p, Binary64.float_pow pow (1 + r) n = Ok p ->
     (p - 1 =? 0) = false ->
     Binary64.compute_emi pow P a n = Ok (P * r * p / (p - 1))) /\
  ((0 < n)%Z -> (r =? 0) = false ->
   forall p, Binary64.float_pow pow (1 + r) n = Ok p ->
     (p - 1 =? 0) = true ->
     Binary64.compute_emi pow P a n = Raise ZeroDivisionError) /\
  ((0 < n)%Z -> (r =? 0) = false ->
   forall ex, Binary64.float_pow pow (1 + r) n = Raise ex ->
     Binary64.compute_emi pow P a n = Raise ex) /\
  ((0 < n)%Z -> (r =? 0) = false -> 1 + r = 1 ->
   forall w, Binary64.float_of_int n = Ok w ->
     Binary64.compute_emi pow P a n = Raise ZeroDivisionError).
Proof.
  intros r. unfold Binary64.compute_emi. fold r.
  repeat split.
  - intros Hn. apply Z.leb_le in Hn. now rewrite Hn.
  - intros Hn Hr w Hw Hw0. apply Z.leb_gt in Hn. rewrite Hn, Hr, Hw.
    unfold bind, Binary64.float_div. now rewrite Hw0.
  - intros Hn Hr p Hp Hp0. apply Z.leb_gt in Hn. rewrite Hn, Hr, Hp.
    unfold bind, Binary64.float_div. now rewrite Hp0.
  - intros Hn Hr p Hp Hp0. apply Z.leb_gt in Hn. rewrite Hn, Hr, Hp.
    unfold bind, Binary64.float_div. now rewrite Hp0.
  - intros Hn Hr ex Hp. apply Z.leb_gt in Hn. rewrite Hn, Hr, Hp.
    reflexivity.
  - intros Hn Hr H1 w Hw. apply Z.leb_gt in Hn. rewrite Hn, Hr, H1.
    unfold Binary64.float_pow. rewrite Hw. unfold bind.
    destruct (w =? 0); reflexivity.
Qed.


(** ** [amortization_schedule] *)

(** X3.  [amortization_schedule] returns a schedule whenever [compute_emi]
    returns an EMI and the start date is early enough that [months + 600]
    further months stay within [MAXYEAR]: the loop itself raises nothing and
    ends, whatever the principal, the rate and the extra payment (infinities
    and NaN included). *)
Theorem b64_schedule_returns (pow : float -> float -> float) (P a : float)
    (N : Z) (s : date) (x e : float) :
  Binary64.compute_emi pow P a N = Ok e ->
  (year s + (N + 600) / 12 < MAXYEAR)%Z ->
  exists rows, Binary64.amortization_schedule pow P a N s x = Ok rows.
Proof.
  intros He Hy.
  destruct (b64_loop_returns (a / 12 / 100) e x N s Hy
              (S (Z.to_nat (N + 600))) P 0%Z [] ltac:(lia) ltac:(lia))
    as [st Hst].
  exists (Binary64.snap_last (Binary64.st_rows st)).
  unfold Binary64.amortization_schedule, Binary64.run_loop.
  rewrite He. unfold bind. now rewrite Hst.
Qed.



(** ** The inputs at which the specification fails *)

(** C1: [compute_emi] raises where the claim promises the closed form.  At
    an annual rate of [2^-60] percent the monthly rate is not 0 but [1 + r]
    rounds to 1, so [(1 + r) ** 12 - 1] is 0 and the division raises
    [ZeroDivisionError]; the same happens at a rate of -2400 over 2 months
    ([(-1.0) ** 2 - 1]); and at a rate of [2^1000] over 2 months
    [(1 + r) ** 2] is out of range and raises [OverflowError]. *)
Lemma b64_compute_emi_raises :
  (0x1p-60 / 12 / 100 =? 0) = false /\
  Binary64.compute_emi Binary64.pow_cr 1000 0x1p-60 12
  = Raise ZeroDivisionError /\
  Binary64.compute_emi Binary64.pow_cr 1000 (-2400) 2
  = Raise ZeroDivisionError /\
  Binary64.compute_emi Binary64.pow_cr 1000 0x1p1000 2
  = Raise OverflowError.
Proof. repeat split; vm_compute; reflexivity. Qed.



(** ** The statements at concrete inputs *)

Lemma b64_compute_emi_cases_witness :
  Binary64.compute_emi Binary64.pow_cr 1000 9 0 = Ok 0 /\
  Binary64.compute_emi Binary64.pow_cr 1200 0 12 = Ok 100 /\
  (exists e,
     Binary64.compute_emi Binary64.pow_cr 1000000 9 12 = Ok e /\
     (87451 <? e) = true /\ (e <? 87452) = true) /\
  Binary64.compute_emi Binary64.pow_cr 1000 (-2400) 2
  = Raise ZeroDivisionError /\
  Binary64.compute_emi Binary64.pow_cr 1000 0x1p1000 2 = Raise OverflowError /\
  Binary64.compute_emi Binary64.pow_cr 1000 0x1p-60 12
  = Raise ZeroDivisionError.
Proof.
  destruct (b64_compute_emi_cases Binary64.pow_cr 1000 9 0)
    as (H0 & _).
  destruct (b64_compute_emi_cases Binary64.pow_cr 1200 0 12)
    as (_ & H1 & _).
  destruct (b64_compute_emi_cases Binary64.pow_cr 1000000 9 12)
    as (_ & _ & H2 & _).
  destruct (b64_compute_emi_cases Binary64.pow_cr 1000 (-2400) 2)
    as (_ & _ & _ & H3 & _).
  destruct (b64_compute_emi_cases Binary64.pow_cr 1000 0x1p1000 2)
    as (_ & _ & _ & _ & H4 & _).
  destruct (b64_compute_emi_cases Binary64.pow_cr 1000 0x1p-60 12)
    as (_ & _ & _ & _ & _ & H5).
  split; [apply H0; lia|].
  split; [apply (H1 ltac:(lia) eq_refl 12); reflexivity|].
  split.
  { eexists. split.
    - apply (H2 ltac:(lia) eq_refl); [vm_compute; reflexivity | reflexivity].
    - split; vm_compute; reflexivity. }
  split; [apply (H3 ltac:(lia) eq_refl 1); reflexivity|].
  split; [apply (H4 ltac:(lia) eq_refl); vm_compute; reflexivity|].
  apply (H5 ltac:(lia) eq_refl eq_refl 12); reflexivity.
Defined.

Lemma b64_schedule_returns_witness :
  exists rows,
    Binary64.amortization_schedule Binary64.pow_cr 1200 12 3 jan2024 0
    = Ok rows.
Proof.
  eapply (b64_schedule_returns Binary64.pow_cr 1200 12 3 jan2024 0).
  - vm_compute. reflexivity.
  - reflexivity.
Defined.


